(** * object-gateway: a shallow embedding of [main.go] and its properties

    The gateway serves one object-storage bucket over HTTP: a path ending in
    a separator is rendered as a directory listing, any other path is
    answered with a redirect to a temporary signed URL.

    Conventions of the embedding:
    - Go [int64] and [int] values are integers in [Z]; the only arithmetic
      that can leave the 64-bit range ([div *= unit]) is wrapped explicitly.
    - Go strings are byte strings: [string] of the Standard Library, one
      [ascii] per byte.
    - A Go [error] is represented by its message (what [err.Error()] gives).
    - The storage client ([s3iface.S3API]) is an interface: a record of
      operations over a backend state that is threaded through every call.
    - The handler talks to [http.ResponseWriter] only through method calls
      whose results it discards, so a handler is embedded as the sequence of
      calls it issues; [net/http]'s response semantics interprets them. *)

From Stdlib Require Import ZArith Lia List Bool Ascii String DecimalString.
From Stdlib Require Import Sorting.Permutation Sorting.Sorted.
From stdpp Require Import base option list strings gmap.

Open Scope Z_scope.

(* ================================================================== *)
(** * Part I: definitions                                               *)
(* ================================================================== *)

(** ** Machine integers *)

Definition int64_min : Z := - 2 ^ 63.
Definition int64_max : Z := 2 ^ 63 - 1.

Definition is_int64 (z : Z) : Prop := int64_min <= z <= int64_max.

(** Two's complement wrap-around of a 64-bit signed result. *)
Definition wrap64 (z : Z) : Z := (z + 2 ^ 63) mod 2 ^ 64 - 2 ^ 63.

(** ** Formatting verbs of [fmt] *)

(** [%d]: decimal digits, with a minus sign for negative values. *)
Definition fmt_d (z : Z) : string := NilZero.string_of_int (Z.to_int z).

(** [%c] of a byte taken from an ASCII string. *)
Definition fmt_c (c : ascii) : string := String c EmptyString.

(** ** IEEE 754 binary64, as far as [humanizeBytes] uses it

    A finite non-negative double is [Fnum * 2 ^ Fexp] with [Fnum < 2 ^ 53]
    (or [Fnum = 2 ^ 53] after a carry, which denotes the same double as
    [2 ^ 52] with the next exponent).  [humanizeBytes] only converts
    integers of at least 1000 and divides them by powers of 1000 up to
    [10 ^ 18], so values stay between 1 and [2 ^ 63]: no zero, no sign,
    no subnormal number and no overflow arises, and rounding is the default
    round-to-nearest, ties to even. *)

Record float64 := F64 { Fnum : Z; Fexp : Z }.

(** Nearest integer to [n / d], ties to even ([0 <= n], [0 < d]). *)
Definition div_half_even (n d : Z) : Z :=
  let q := n / d in
  let r := n mod d in
  match 2 * r ?= d with
  | Lt => q
  | Gt => q + 1
  | Eq => if Z.even q then q else q + 1
  end.

(** Exponent [e] with [2 ^ 52 <= (n / d) / 2 ^ e < 2 ^ 53]  ([0 < n], [0 < d]). *)
Definition ulp_exp (n d : Z) : Z :=
  let k := Z.log2 n - Z.log2 d in
  (* floor (log2 (n / d)) is k or k - 1 *)
  let fl := if (if 0 <=? k then d * 2 ^ k <=? n else d <=? n * 2 ^ (- k))
            then k else k - 1 in
  fl - 52.

(** The double nearest to the positive rational [n / d]. *)
Definition round64 (n d : Z) : float64 :=
  let e := ulp_exp n d in
  let m := if 0 <=? e then div_half_even n (d * 2 ^ e)
           else div_half_even (n * 2 ^ (- e)) d in
  F64 m e.

(** [float64(b)] for a positive integer [b]. *)
Definition float64_of_int (b : Z) : float64 := round64 b 1.

(** [x / y] on positive doubles. *)
Definition float64_div (x y : float64) : float64 :=
  let ex := Fexp x in
  let ey := Fexp y in
  let n := Fnum x * 2 ^ (Z.max 0 (ex - ey)) in
  let d := Fnum y * 2 ^ (Z.max 0 (ey - ex)) in
  round64 n d.

(** Two digits of a number below 100. *)
Definition two_digits (z : Z) : string :=
  (if z <? 10 then "0" else EmptyString) +:+ fmt_d z.

(** [%.2f] of a non-negative double: the exact binary value rounded to
    hundredths, ties to even, as [strconv] prints it. *)
Definition fmt_2f (x : float64) : string :=
  let h := if 0 <=? Fexp x
           then Fnum x * 2 ^ Fexp x * 100
           else div_half_even (Fnum x * 100) (2 ^ (- Fexp x)) in
  fmt_d (h / 100) +:+ "." +:+ two_digits (h mod 100).

(** ** [humanizeBytes]  (main.go, lines 20-31) *)

Definition unit : Z := 1000.

(** The loop [for n := b / unit; n >= unit; n /= unit { div *= unit; exp++ }].
    [fuel] bounds the number of iterations; [None] means it ran out. *)
Fixpoint humanize_loop (fuel : nat) (n div exp : Z) : option (Z * Z) :=
  if unit <=? n then
    match fuel with
    | O => None
    | S fuel' =>
        humanize_loop fuel' (Z.quot n unit) (wrap64 (div * unit)) (exp + 1)
    end
  else Some (div, exp).

(** What a call of a Go function comes to. *)
Inductive outcome (A : Type) : Type :=
| Returns (a : A)          (* normal return *)
| Panics (msg : string)    (* run-time panic *)
| Diverges.                (* the fuel of the model ran out *)
Arguments Returns {A} a.
Arguments Panics {A} msg.
Arguments Diverges {A}.

(** [s[i]] on a string: a run-time panic outside [0 <= i < len(s)]. *)
Definition string_index (s : string) (i : Z) : outcome ascii :=
  if i <? 0 then Panics "index out of range"
  else match String.get (Z.to_nat i) s with
       | Some c => Returns c
       | None => Panics "index out of range"
       end.

(** A 64-bit value is below [2 ^ 63], and every iteration divides by 1000:
    64 iterations are more than the loop can ever take. *)
Definition humanize_fuel : nat := 64.

Definition humanizeBytes (b : Z) : outcome string :=
  if b <? unit then Returns (fmt_d b +:+ " B")
  else
    match humanize_loop humanize_fuel (Z.quot b unit) unit 0 with
    | None => Diverges
    | Some (div, exp) =>
        match string_index "kMGTPE" exp with
        | Returns c =>
            Returns (fmt_2f (float64_div (float64_of_int b) (float64_of_int div))
                       +:+ " " +:+ fmt_c c +:+ "B")
        | Panics msg => Panics msg
        | Diverges => Diverges
        end
    end.

(** ** Functions of package [strings] and slice expressions *)

(** The bytes written [\n], [\t] and the double quote in the Go source. *)
Definition LF : string := String "010"%char EmptyString.
Definition TAB : string := String "009"%char EmptyString.
Definition DQ : string := String "034"%char EmptyString.

Fixpoint string_take (n : nat) (s : string) : string :=
  match n, s with
  | S n', String c s' => String c (string_take n' s')
  | _, _ => EmptyString
  end.

Fixpoint string_drop (n : nat) (s : string) : string :=
  match n, s with
  | S n', String _ s' => string_drop n' s'
  | _, _ => s
  end.

Definition HasPrefix (s prefix : string) : bool := String.prefix prefix s.

Definition HasSuffix (s suffix : string) : bool :=
  (String.length suffix <=? String.length s)%nat
  && String.eqb (string_drop (String.length s - String.length suffix) s) suffix.

Definition TrimPrefix (s prefix : string) : string :=
  if HasPrefix s prefix then string_drop (String.length prefix) s else s.

(** [strings.LastIndex]: the index of the last occurrence, or [-1]. *)
Fixpoint LastIndex_from (s substr : string) (i last : Z) : Z :=
  let last' := if String.prefix substr s then i else last in
  match s with
  | EmptyString => last'
  | String _ s' => LastIndex_from s' substr (i + 1) last'
  end.

Definition LastIndex (s substr : string) : Z := LastIndex_from s substr 0 (-1).

(** The slice expression [s[:hi]]. *)
Definition slice_to (s : string) (hi : Z) : outcome string :=
  if (hi <? 0) || (Z.of_nat (String.length s) <? hi)
  then Panics "slice bounds out of range"
  else Returns (string_take (Z.to_nat hi) s).

(** [strings.Replace(s, old, new, 1)]: the first occurrence only; an empty
    [old] matches at the start of [s]. *)
Definition Replace1 (s old new : string) : string :=
  if String.eqb old new then s
  else match String.index 0 old s with
       | None => s
       | Some i =>
           string_take i s +:+ new +:+ string_drop (i + String.length old) s
       end.

(** ** The storage client: [s3iface.S3API] and the [aws] helpers *)

(** A Go [error], by its message. *)
Definition error : Type := string.

(** A [time.Time] instant; the zero value is [zeroTime].  How an instant is
    printed is left to [Format] (a parameter of the renderer). *)
Definition Time : Type := Z.
Definition zeroTime : Time := 0.

(** A [time.Duration], in nanoseconds. *)
Definition Duration : Type := Z.
Definition Minute : Duration := 60 * 1000000000.

(** Pointer-typed fields of the SDK's structures are options. *)
Record Object := mkObject {
  Key : option string;
  Size : option Z;
  LastModified : option Time
}.

Record CommonPrefix := mkCommonPrefix { Prefix : option string }.

Record ListObjectsV2Input := mkListInput {
  in_Bucket : option string;
  in_Delimiter : option string;
  in_Prefix : option string;
  in_ContinuationToken : option string
}.

Record ListObjectsV2Output := mkListOutput {
  Contents : list Object;
  CommonPrefixes : list CommonPrefix;
  IsTruncated : option bool;
  NextContinuationToken : option string
}.

Record GetObjectInput := mkGetInput {
  get_Bucket : option string;
  get_Key : option string
}.

Definition aws_String (s : string) : option string := Some s.
Definition aws_StringValue (p : option string) : string := default EmptyString p.
Definition aws_Int64Value (p : option Z) : Z := default 0 p.
Definition aws_TimeValue (p : option Time) : Time := default zeroTime p.
Definition aws_BoolValue (p : option bool) : bool := default false p.

(** The two capabilities the gateway uses, over a backend state [B]:
    [ListObjectsV2], and [GetObjectRequest] followed by [Presign]. *)
Record S3API (B : Type) := mkS3API {
  ListObjectsV2 : ListObjectsV2Input -> B -> (ListObjectsV2Output + error) * B;
  Presign : GetObjectInput -> Duration -> B -> (string + error) * B
}.
Arguments ListObjectsV2 {B} _ _ _.
Arguments Presign {B} _ _ _ _.

Record s3Client (B : Type) := mkClient {
  api : S3API B;
  bucket : string
}.
Arguments api {B} _.
Arguments bucket {B} _.

(** ** [file] and [listObjectsByPrefix]  (main.go, lines 60-110) *)

Record file := mkFile {
  name : string;
  isDir : bool;
  size : Z;
  lastModified : Time
}.

Definition file_of_object (o : Object) : file :=
  {| name := aws_StringValue (Key o);
     isDir := false;
     size := aws_Int64Value (Size o);
     lastModified := aws_TimeValue (LastModified o) |}.

Definition file_of_prefix (p : CommonPrefix) : file :=
  {| name := aws_StringValue (Prefix p);
     isDir := true;
     size := 0;
     lastModified := zeroTime |}.

(** The files one page contributes: its objects, then its common prefixes. *)
Definition page_files (out : ListObjectsV2Output) : list file :=
  map file_of_object (Contents out) ++ map file_of_prefix (CommonPrefixes out).

Definition list_request {B} (c : s3Client B) (key : string)
    (continuationToken : option string) : ListObjectsV2Input :=
  {| in_Bucket := aws_String (bucket c);
     in_Delimiter := aws_String "/";
     in_Prefix := aws_String key;
     in_ContinuationToken := continuationToken |}.

(** The exit test of the pagination loop (line 89). *)
Definition last_page (out : ListObjectsV2Output) : bool :=
  negb (aws_BoolValue (IsTruncated out))
  || match NextContinuationToken out with None => true | Some _ => false end.

(** The [for] loop of lines 66-93; every iteration issues one request and
    uses one unit of [fuel].  The Go result pair [(files, err)] is kept as
    a pair: [([], Some err)] is [return nil, err]. *)
Fixpoint list_loop {B} (fuel : nat) (c : s3Client B) (key : string)
    (continuationToken : option string) (files : list file) (b : B)
    : outcome (list file * option error) * B :=
  match fuel with
  | O => (Diverges, b)
  | S fuel' =>
      match ListObjectsV2 (api c) (list_request c key continuationToken) b with
      | (inr err, b') => (Returns ([], Some err), b')
      | (inl out, b') =>
          let files' := files ++ page_files out in
          if last_page out then (Returns (files', None), b')
          else list_loop fuel' c key (NextContinuationToken out) files' b'
      end
  end.

Definition listObjectsByPrefix {B} (fuel : nat) (c : s3Client B)
    (path : string) (b : B) : outcome (list file * option error) * B :=
  list_loop fuel c (TrimPrefix path "/") None [] b.

(** ** [getPreSignedLink]  (main.go, lines 97-103) *)

Definition getPreSignedLink {B} (c : s3Client B) (key : string)
    (duration : Duration) (b : B) : (string + error) * B :=
  Presign (api c)
    {| get_Bucket := aws_String (bucket c); get_Key := aws_String key |}
    duration b.

(** ** [sort.Slice]  (package [sort] of Go 1.17, the toolchain the
    Dockerfile and the CI workflow pin)

    [sort.Slice(x, less)] runs [quickSort_func] on the slice through two
    operations only: [Less(i, j)], the caller's closure evaluated on the
    current contents, and [Swap(i, j)].  Indices are slice positions, so
    they are natural numbers here; the slice is a list updated in place. *)

Section SortSlice.
Context {A : Type}.
Variable less : A -> A -> bool.

Local Open Scope nat_scope.

Definition Less (data : list A) (i j : nat) : bool :=
  match data !! i, data !! j with
  | Some x, Some y => less x y
  | _, _ => false
  end.

Definition Swap (data : list A) (i j : nat) : list A :=
  match data !! i, data !! j with
  | Some x, Some y => <[j:=x]> (<[i:=y]> data)
  | _, _ => data
  end.

(** [for j := i; j > a && Less(j, j-1); j-- { Swap(j, j-1) }] *)
Fixpoint insertion_inner (data : list A) (a j : nat) : list A :=
  match j with
  | O => data
  | S j' =>
      if (a <? j) && Less data j j'
      then insertion_inner (Swap data j j') a j'
      else data
  end.

(** [for i := ...; i < b; i++ { inner loop }], [n] iterations left. *)
Fixpoint insertion_outer (n : nat) (data : list A) (a i : nat) : list A :=
  match n with
  | O => data
  | S n' => insertion_outer n' (insertion_inner data a i) a (S i)
  end.

Definition insertionSort_func (data : list A) (a b : nat) : list A :=
  insertion_outer (b - (a + 1)) data a (a + 1).

(** [siftDown_func]: [root] grows in every iteration and the loop returns
    once [2 * root + 1 >= hi], so [hi] iterations are never all used. *)
Fixpoint siftDown_loop (fuel : nat) (data : list A) (root hi first : nat)
    : list A :=
  match fuel with
  | O => data
  | S fuel' =>
      let child := 2 * root + 1 in
      if hi <=? child then data
      else
        let child :=
          if (child + 1 <? hi) && Less data (first + child) (first + child + 1)
          then child + 1 else child in
        if negb (Less data (first + root) (first + child)) then data
        else siftDown_loop fuel' (Swap data (first + root) (first + child))
               child hi first
  end.

Definition siftDown_func (data : list A) (lo hi first : nat) : list A :=
  siftDown_loop hi data lo hi first.

(** [for i := (hi - 1) / 2; i >= 0; i-- { siftDown_func(data, i, hi, first) }],
    with [k = i + 1]. *)
Fixpoint heap_build (k : nat) (data : list A) (hi first : nat) : list A :=
  match k with
  | O => data
  | S i => heap_build i (siftDown_func data i hi first) hi first
  end.

(** [for i := hi - 1; i >= 0; i-- { Swap(first, first+i); siftDown_func(data, lo, i, first) }],
    with [k = i + 1] and [lo = 0]. *)
Fixpoint heap_pop (k : nat) (data : list A) (first : nat) : list A :=
  match k with
  | O => data
  | S i => heap_pop i (siftDown_func (Swap data first (first + i)) 0 i first) first
  end.

Definition heapSort_func (data : list A) (a b : nat) : list A :=
  let first := a in
  let hi := b - a in
  heap_pop hi (heap_build ((hi - 1) / 2 + 1) data hi first) first.

Definition medianOfThree_func (data : list A) (m1 m0 m2 : nat) : list A :=
  let data := if Less data m1 m0 then Swap data m1 m0 else data in
  if Less data m2 m1 then
    let data := Swap data m2 m1 in
    if Less data m1 m0 then Swap data m1 m0 else data
  else data.

(** [for ; i < c && test(i); i++ {}], with [n] positions left below [c]. *)
Fixpoint scan_up (test : nat -> bool) (n i : nat) : nat :=
  match n with
  | O => i
  | S n' => if test i then scan_up test n' (S i) else i
  end.

(** [for ; b < c && test(c-1); c-- {}], with [n] positions left above [b]. *)
Fixpoint scan_down (test : nat -> bool) (n c : nat) : nat :=
  match n with
  | O => c
  | S n' => if test (c - 1) then scan_down test n' (c - 1) else c
  end.

(** The partitioning loop of [doPivot_func]: every round that does not
    break moves [b] up and [c] down, so [c - b] rounds suffice. *)
Fixpoint pivot_loop (fuel : nat) (data : list A) (pivot b c : nat)
    : list A * nat * nat :=
  let b := scan_up (fun i => negb (Less data pivot i)) (c - b) b in
  let c := scan_down (fun i => Less data pivot i) (c - b) c in
  if c <=? b then (data, b, c)
  else
    match fuel with
    | O => (data, b, c)
    | S fuel' => pivot_loop fuel' (Swap data b (c - 1)) pivot (b + 1) (c - 1)
    end.

(** The loop that gathers the elements equal to the pivot. *)
Fixpoint protect_loop (fuel : nat) (data : list A) (pivot a b : nat)
    : list A * nat * nat :=
  let b := scan_down (fun i => negb (Less data i pivot)) (b - a) b in
  let a := scan_up (fun i => Less data i pivot) (b - a) a in
  if b <=? a then (data, a, b)
  else
    match fuel with
    | O => (data, a, b)
    | S fuel' => protect_loop fuel' (Swap data a (b - 1)) pivot (a + 1) (b - 1)
    end.

(** The choice of the pivot (lines before the invariants of [doPivot_func]):
    Tukey's ninther for more than 40 elements, then the median of
    [data[lo]], [data[m]], [data[hi-1]] goes to [data[lo]]. *)
Definition choose_pivot (data : list A) (lo hi m : nat) : list A :=
  let data :=
    if 40 <? hi - lo then
      let s := (hi - lo) / 8 in
      let data := medianOfThree_func data lo (lo + s) (lo + 2 * s) in
      let data := medianOfThree_func data m (m - s) (m + s) in
      medianOfThree_func data (hi - 1) (hi - 1 - s) (hi - 1 - 2 * s)
    else data in
  medianOfThree_func data lo m (hi - 1).

(** The three probes for elements equal to the pivot
    ([if !protect && hi-c < (hi-lo)/4 { ... }]); the result carries the
    new value of [protect], [dups > 1]. *)
Definition check_dups (data : list A) (pivot m hi b c : nat)
    : list A * nat * nat * bool :=
  let '(data, c, dups) :=
    if negb (Less data pivot (hi - 1))
    then (Swap data c (hi - 1), c + 1, 1) else (data, c, 0) in
  let '(b, dups) :=
    if negb (Less data (b - 1) pivot) then (b - 1, dups + 1) else (b, dups) in
  let '(data, b, dups) :=
    if negb (Less data m pivot)
    then (Swap data m (b - 1), b - 1, dups + 1) else (data, b, dups) in
  (data, b, c, 1 <? dups).

Definition doPivot_func (data : list A) (lo hi : nat) : list A * nat * nat :=
  let m := (lo + hi) / 2 in
  let data := choose_pivot data lo hi m in
  let pivot := lo in
  let a := scan_up (fun i => Less data i pivot) (hi - 1 - (lo + 1)) (lo + 1) in
  let '(data, b, c) := pivot_loop (hi - 1 - a) data pivot a (hi - 1) in
  let '(data, b, c, protect) :=
    if negb (hi - c <? 5) && (hi - c <? (hi - lo) / 4)
    then check_dups data pivot m hi b c
    else (data, b, c, hi - c <? 5) in
  let '(data, b) :=
    if protect then
      let '(data, _, b) := protect_loop (b - a) data pivot a b in (data, b)
    else (data, b) in
  (Swap data pivot (b - 1), b - 1, c).

(** [for i := a + 6; i < b; i++ { if Less(i, i-6) { Swap(i, i-6) } }] *)
Fixpoint gap_pass (n : nat) (data : list A) (i : nat) : list A :=
  match n with
  | O => data
  | S n' =>
      gap_pass n' (if Less data i (i - 6) then Swap data i (i - 6) else data) (S i)
  end.

(** [quickSort_func]: [maxDepth] goes down by one in every round of the
    [for b-a > 12] loop, and the recursive call gets the decremented
    value, so the function is structurally recursive on it. *)
Fixpoint quickSort_func (maxDepth : nat) (data : list A) (a b : nat) : list A :=
  if 12 <? b - a then
    match maxDepth with
    | O => heapSort_func data a b
    | S maxDepth' =>
        let '(data, mlo, mhi) := doPivot_func data a b in
        if mlo - a <? b - mhi
        then quickSort_func maxDepth' (quickSort_func maxDepth' data a mlo) mhi b
        else quickSort_func maxDepth' (quickSort_func maxDepth' data mhi b) a mlo
    end
  else if 1 <? b - a then
    insertionSort_func (gap_pass (b - (a + 6)) data (a + 6)) a b
  else data.

(** [maxDepth(n)]: twice the number of bits of [n]. *)
Fixpoint bit_length (fuel n : nat) : nat :=
  match fuel with
  | O => 0
  | S fuel' => if 0 <? n then S (bit_length fuel' (n / 2)) else 0
  end.

Definition maxDepth (n : nat) : nat := 2 * bit_length n n.

Definition sort_Slice (x : list A) : list A :=
  quickSort_func (maxDepth (length x)) x 0 (length x).

End SortSlice.

(** *** Notions for reasoning about the in-place sort *)

Section SortNotions.
Context {A : Type}.
Variable less : A -> A -> bool.

Local Open Scope nat_scope.

(** The transposition of [i] and [j]. *)
Definition transp (i j u : nat) : nat :=
  if decide (u = i) then j else if decide (u = j) then i else u.

(** [l'] comes from [l] by exchanging elements at positions of [[a, b)]. *)
Inductive swaps_in (a b : nat) : list A -> list A -> Prop :=
| swaps_refl l : swaps_in a b l l
| swaps_step l l' i j :
    swaps_in a b l l' -> a <= i < b -> a <= j < b ->
    swaps_in a b l (Swap l' i j).

(** No element of [[a, b)] is less than one before it in [[a, b)]. *)
Definition sorted_range (l : list A) (a b : nat) : Prop :=
  forall i j, a <= i -> i <= j -> j < b -> Less less l j i = false.

(** The heap that [heapSort_func] keeps in [data[first : first+hi]]: from
    node [k] on, no node is less than one of its children. *)
Definition heap_at (l : list A) (first hi i : nat) : Prop :=
  forall c, (c = 2 * i + 1 \/ c = 2 * i + 2) -> c < hi ->
            Less less l (first + i) (first + c) = false.

Definition heap_from (l : list A) (first hi k : nat) : Prop :=
  forall i, k <= i -> i < hi -> heap_at l first hi i.

(** The regions [doPivot_func] maintains around the pivot [data[lo]]:
    [(lo, a)] below the pivot, [[a, b)] not above it, [[b, c)] equal to it
    and [[c, hi)] not below it. *)
Definition partitioned (l : list A) (lo a b c hi : nat) : Prop :=
  (forall i, lo < i -> i < a -> Less less l i lo = true) /\
  (forall i, a <= i -> i < b -> Less less l lo i = false) /\
  (forall i, b <= i -> i < c ->
             Less less l lo i = false /\ Less less l i lo = false) /\
  (forall i, c <= i -> i < hi -> Less less l i lo = false).

(** What [doPivot_func] returns: [[lo, mlo)] not above [data[mlo]],
    [[mlo, mhi)] equal to it, [[mhi, hi)] not below it. *)
Definition pivoted (l : list A) (lo mlo mhi hi : nat) : Prop :=
  (forall i, lo <= i -> i < mlo -> Less less l mlo i = false) /\
  (forall i, mlo <= i -> i < mhi ->
             Less less l mlo i = false /\ Less less l i mlo = false) /\
  (forall i, mhi <= i -> i < hi -> Less less l i mlo = false).

End SortNotions.

(** ** [net/http]: requests, response writers and what a handler does to them *)

Record Request := mkRequest {
  Method : string;
  Host : string;
  URL_Path : string;
  URL_RawQuery : string
}.

(** The calls a handler makes on its [http.ResponseWriter]. *)
Inductive call : Type :=
| HeaderSet (key value : string)     (* w.Header().Set(key, value) *)
| WriteHeader (code : Z)             (* w.WriteHeader(code) *)
| Write (data : string).             (* w.Write(data), result discarded *)

(** What a handler does to its writer: calls in order, possibly depending
    on what it reads in the header map ([http.Redirect] looks up
    ["Content-Type"]). *)
Inductive prog : Type :=
| Done
| Do (c : call) (k : prog)
| ReadHeader (key : string) (k : option string -> prog).

Fixpoint seq_prog (p q : prog) : prog :=
  match p with
  | Done => q
  | Do c k => Do c (seq_prog k q)
  | ReadHeader key k => ReadHeader key (fun v => seq_prog (k v) q)
  end.

(** An implementation of the [http.ResponseWriter] interface over a writer
    state [W]. *)
Record ResponseWriter (W : Type) := mkResponseWriter {
  rw_HeaderSet : string -> string -> W -> W;
  rw_HeaderGet : string -> W -> option string;
  rw_WriteHeader : Z -> W -> W;
  rw_Write : string -> W -> W
}.
Arguments rw_HeaderSet {W} _ _ _ _.
Arguments rw_HeaderGet {W} _ _ _.
Arguments rw_WriteHeader {W} _ _ _.
Arguments rw_Write {W} _ _ _.

Definition do_call {W} (impl : ResponseWriter W) (c : call) (w : W) : W :=
  match c with
  | HeaderSet key value => rw_HeaderSet impl key value w
  | WriteHeader code => rw_WriteHeader impl code w
  | Write data => rw_Write impl data w
  end.

Fixpoint run {W} (impl : ResponseWriter W) (p : prog) (w : W) : W :=
  match p with
  | Done => w
  | Do c k => run impl k (do_call impl c w)
  | ReadHeader key k => run impl (k (rw_HeaderGet impl key w)) w
  end.

(** The calls that are actually issued when [p] runs on [w]. *)
Fixpoint trace {W} (impl : ResponseWriter W) (p : prog) (w : W) : list call :=
  match p with
  | Done => []
  | Do c k => c :: trace impl k (do_call impl c w)
  | ReadHeader key k => trace impl (k (rw_HeaderGet impl key w)) w
  end.

(** The server's own writer ([http.response]): the header map the handler
    edits, and what has gone to the client: once the status line is out
    ([wroteHeader]), with [status] and a snapshot of the headers, later
    [WriteHeader] calls are ignored; the first [Write] sends status 200
    if none was sent.  The keys this program sets are already in canonical
    form.  The body of a response to HEAD is dropped further down, by the
    transport. *)
Record response := mkResponse {
  header : gmap string string;
  wroteHeader : bool;
  status : Z;
  sentHeader : gmap string string;
  body : string
}.

Definition new_response : response :=
  {| header := ∅; wroteHeader := false; status := 0; sentHeader := ∅;
     body := EmptyString |}.

Definition bodyAllowedForStatus (status : Z) : bool :=
  if (100 <=? status) && (status <=? 199) then false
  else if status =? 204 then false
  else if status =? 304 then false
  else true.

Definition response_WriteHeader (code : Z) (w : response) : response :=
  if wroteHeader w then w
  else {| header := header w; wroteHeader := true; status := code;
          sentHeader := header w; body := body w |}.

Definition response_Write (data : string) (w : response) : response :=
  let w := if wroteHeader w then w else response_WriteHeader 200 w in
  if bodyAllowedForStatus (status w)
  then {| header := header w; wroteHeader := wroteHeader w; status := status w;
          sentHeader := sentHeader w; body := body w +:+ data |}
  else w.

Definition response_HeaderSet (key value : string) (w : response) : response :=
  {| header := <[key:=value]> (header w); wroteHeader := wroteHeader w;
     status := status w; sentHeader := sentHeader w; body := body w |}.

Definition net_http : ResponseWriter response :=
  {| rw_HeaderSet := response_HeaderSet;
     rw_HeaderGet := fun key w => header w !! key;
     rw_WriteHeader := response_WriteHeader;
     rw_Write := response_Write |}.

Definition StatusOK : Z := 200.
Definition StatusPermanentRedirect : Z := 308.
Definition StatusInternalServerError : Z := 500.

(** [http.Error]: two headers, the status, then the message and a newline
    ([fmt.Fprintln]). *)
Definition http_Error (err : string) (code : Z) : prog :=
  Do (HeaderSet "Content-Type" "text/plain; charset=utf-8")
    (Do (HeaderSet "X-Content-Type-Options" "nosniff")
      (Do (WriteHeader code)
        (Do (Write (err +:+ LF)) Done))).

(** Library functions that are used but whose output no property below
    depends on. *)
Record GoLib := mkGoLib {
  (* time.Time.Format(time.RFC3339) *)
  Format_RFC3339 : Time -> string;
  (* what a tabwriter.NewWriter(buf, 0, 0, 1, ' ', 0) leaves in buf at Flush
     for the text written to it *)
  tabwriter : string -> string;
  (* http.Redirect's treatment of the target: a relative URL is resolved
     against the request path and cleaned *)
  redirect_url : string -> string -> string;
  hexEscapeNonASCII : string -> string;
  htmlEscape : string -> string;
  statusText : Z -> string
}.

(** [http.Redirect]. *)
Definition http_Redirect (lib : GoLib) (r : Request) (url : string) (code : Z)
    : prog :=
  let url := redirect_url lib (URL_Path r) url in
  ReadHeader "Content-Type" (fun ct =>
    let hadCT := match ct with Some _ => true | None => false end in
    Do (HeaderSet "Location" (hexEscapeNonASCII lib url))
      (seq_prog
         (if negb hadCT && (String.eqb (Method r) "GET" || String.eqb (Method r) "HEAD")
          then Do (HeaderSet "Content-Type" "text/html; charset=utf-8") Done
          else Done)
         (Do (WriteHeader code)
            (if negb hadCT && String.eqb (Method r) "GET"
             then Do (Write ("<a href=" +:+ DQ +:+ htmlEscape lib url +:+ DQ +:+ ">"
                               +:+ statusText lib code +:+ "</a>." +:+ LF
                               +:+ LF)) Done
             else Done)))).

(** ** [renderFileList]  (main.go, lines 112-148) *)

(** The closure handed to [sort.Slice]: [list[i].name < list[j].name],
    the byte-wise order of Go strings. *)
Definition name_less (x y : file) : bool := String.ltb (name x) (name y).

(** One line written to the tabwriter (lines 126-130). *)
Definition row (lib : GoLib) (dir : file) : outcome string :=
  if isDir dir then Returns (name dir +:+ TAB +:+ TAB +:+ TAB +:+ LF)
  else
    match humanizeBytes (size dir) with
    | Returns h =>
        Returns (name dir +:+ TAB +:+ Format_RFC3339 lib (lastModified dir)
                   +:+ TAB +:+ h +:+ LF)
    | Panics msg => Panics msg
    | Diverges => Diverges
    end.

Fixpoint rows (lib : GoLib) (list : list file) : outcome string :=
  match list with
  | [] => Returns EmptyString
  | dir :: rest =>
      match row lib dir, rows lib rest with
      | Returns s, Returns t => Returns (s +:+ t)
      | Panics msg, _ => Panics msg
      | Diverges, _ => Diverges
      | _, Panics msg => Panics msg
      | _, Diverges => Diverges
      end
  end.

(** [<a href="link">text</a>] *)
Definition anchor (link text : string) : string :=
  "<a href=" +:+ DQ +:+ link +:+ DQ +:+ ">" +:+ text +:+ "</a>".

(** The second loop (lines 134-145): one link per entry, substituted for the
    first occurrence of the entry's name in [content]; the first signing
    error ends the loop. *)
Fixpoint link_loop {B} (c : s3Client B) (list : list file) (content : string)
    (b : B) : (string + error) * B :=
  match list with
  | [] => (inl content, b)
  | dir :: rest =>
      if isDir dir then
        link_loop c rest
          (Replace1 content (name dir) (anchor ("/" +:+ name dir) (name dir))) b
      else
        match getPreSignedLink c (name dir) (Minute * 5) b with
        | (inr err, b') =>
            (inr ("error getting presigned link for " +:+ name dir +:+ ": " +:+ err),
             b')
        | (inl link, b') =>
            link_loop c rest (Replace1 content (name dir) (anchor link (name dir))) b'
        end
  end.

(** The writes of lines 116-118. *)
Definition page_head (path : string) (k : prog) : prog :=
  Do (HeaderSet "Content-Type" "text/html; charset=utf-8")
    (Do (Write ("<pre>" +:+ LF))
      (Do (Write (path +:+ LF +:+ LF)) k)).

(** The [href] of the link of lines 120-121. *)
Definition up_href (path : string) : outcome string :=
  match slice_to path (LastIndex path "/") with
  | Returns p => Returns (p +:+ "/..")
  | Panics msg => Panics msg
  | Diverges => Diverges
  end.

(** The text written by line 121. *)
Definition up_link (href : string) : string :=
  "<a href=" +:+ DQ +:+ href +:+ DQ +:+ ">..</a>" +:+ LF.

(** Lines 119-122: the writes for the link to the parent, none at the root. *)
Definition up_writes (path : string) : outcome (list call) :=
  if String.eqb path "/" then Returns []
  else
    match up_href path with
    | Returns href => Returns [Write (up_link href)]
    | Panics msg => Panics msg
    | Diverges => Diverges
    end.

Fixpoint do_all (cs : list call) (k : prog) : prog :=
  match cs with
  | [] => k
  | c :: cs' => Do c (do_all cs' k)
  end.

(** [renderFileList] gives what it wrote to [w] and the error it returned.
    A panic unwinds the handler; what had been written before it is not
    kept in the outcome. *)
Definition renderFileList {B} (lib : GoLib) (c : s3Client B) (r : Request)
    (list : list file) (b : B) : outcome (prog * option error) * B :=
  let list := sort_Slice name_less list in
  let path := URL_Path r in
  match up_writes path, rows lib list with
  | Returns up, Returns text =>
      let content := tabwriter lib text in
      match link_loop c list content b with
      | (inr err, b') => (Returns (page_head path (do_all up Done), Some err), b')
      | (inl content, b') =>
          (Returns (page_head path
                      (do_all up (Do (Write (content +:+ LF +:+ "</pre>" +:+ LF)) Done)),
                    None), b')
      end
  | Panics msg, _ => (Panics msg, b)
  | Diverges, _ => (Diverges, b)
  | _, Panics msg => (Panics msg, b)
  | _, Diverges => (Diverges, b)
  end.

(** ** [buildHandler]  (main.go, lines 150-172) *)

Definition Handler (B : Type) : Type := Request -> B -> outcome prog * B.

Definition buildHandler {B} (lib : GoLib) (fuel : nat) (client : s3Client B)
    : Handler B :=
  fun r b =>
    let path := URL_Path r in
    if HasSuffix path "/" then
      match listObjectsByPrefix fuel client path b with
      | (Returns (_, Some err), b1) =>
          (Returns (http_Error err StatusInternalServerError), b1)
      | (Returns (list, None), b1) =>
          match renderFileList lib client r list b1 with
          | (Returns (p, Some err), b2) =>
              (Returns (seq_prog p (http_Error err StatusInternalServerError)), b2)
          | (Returns (p, None), b2) => (Returns p, b2)
          | (Panics msg, b2) => (Panics msg, b2)
          | (Diverges, b2) => (Diverges, b2)
          end
      | (Panics msg, b1) => (Panics msg, b1)
      | (Diverges, b1) => (Diverges, b1)
      end
    else
      match getPreSignedLink client path (Minute * 5) b with
      | (inr err, b1) => (Returns (http_Error err StatusInternalServerError), b1)
      | (inl link, b1) =>
          (Returns (http_Redirect lib r link StatusPermanentRedirect), b1)
      end.

(** ** [responseWriter] and [withLogging]  (main.go, lines 33-53) *)

(** The wrapper: the embedded writer and the recorded status. *)
Record responseWriter (W : Type) := mkWrapper {
  embedded : W;
  StatusCode : Z
}.
Arguments mkWrapper {W} _ _.
Arguments embedded {W} _.
Arguments StatusCode {W} _.

(** Its method set: [WriteHeader] is the one of lines 38-41, the others are
    promoted from the embedded writer. *)
Definition responseWriter_methods {W} (impl : ResponseWriter W)
    : ResponseWriter (responseWriter W) :=
  {| rw_HeaderSet := fun key value ww =>
       mkWrapper (rw_HeaderSet impl key value (embedded ww)) (StatusCode ww);
     rw_HeaderGet := fun key ww => rw_HeaderGet impl key (embedded ww);
     rw_WriteHeader := fun code ww =>
       mkWrapper (rw_WriteHeader impl code (embedded ww)) code;
     rw_Write := fun data ww =>
       mkWrapper (rw_Write impl data (embedded ww)) (StatusCode ww) |}.

(** The message of line 51; [elapsed] is what [%v] prints for
    [time.Since(start)]. *)
Definition log_line (r : Request) (elapsed : string) (code : Z) : string :=
  "[" +:+ Method r +:+ "] [" +:+ elapsed +:+ "] [" +:+ fmt_d code +:+ "] "
  +:+ Host r +:+ " " +:+ URL_Path r +:+ " " +:+ URL_RawQuery r.

(** [withLogging(h)] serving [r] on the writer [w]: the writer afterwards,
    and the line handed to [log.Printf]. *)
Definition withLogging {B W} (impl : ResponseWriter W) (elapsed : string)
    (h : Handler B) (r : Request) (w : W) (b : B) : outcome (W * string) * B :=
  match h r b with
  | (Returns p, b') =>
      let ww := run (responseWriter_methods impl) p (mkWrapper w StatusOK) in
      (Returns (embedded ww, log_line r elapsed (StatusCode ww)), b')
  | (Panics msg, b') => (Panics msg, b')
  | (Diverges, b') => (Diverges, b')
  end.

(** What [main] registers (line 188), serving one request on a fresh
    response.  The rest of [main] (the environment variables, the session,
    the listening socket) and the path cleaning of the default mux are
    outside this embedding. *)
Definition gateway {B} (lib : GoLib) (fuel : nat) (elapsed : string)
    (client : s3Client B) (r : Request) (b : B)
    : outcome (response * string) * B :=
  withLogging net_http elapsed (buildHandler lib fuel client) r new_response b.

(** ** Backends: how they answer, and test doubles *)

(** From state [b], asked for [key] starting with the token [tok], the
    backend serves [pages] one request after the other: every page but the
    last reports more pages and carries the token of the next request, the
    last one ends the listing.  [b'] is the state after the last request. *)
Inductive serves {B} (c : s3Client B) (key : string)
    : option string -> B -> list ListObjectsV2Output -> B -> Prop :=
| serves_last tok b out b' :
    ListObjectsV2 (api c) (list_request c key tok) b = (inl out, b') ->
    last_page out = true ->
    serves c key tok b [out] b'
| serves_next tok b out b' outs b'' :
    ListObjectsV2 (api c) (list_request c key tok) b = (inl out, b') ->
    last_page out = false ->
    serves c key (NextContinuationToken out) b' outs b'' ->
    serves c key tok b (out :: outs) b''.

(** The same, but the request after [pages] fails with [err]. *)
Inductive serves_then_fails {B} (c : s3Client B) (key : string)
    : option string -> B -> list ListObjectsV2Output -> error -> B -> Prop :=
| fails_now tok b err b' :
    ListObjectsV2 (api c) (list_request c key tok) b = (inr err, b') ->
    serves_then_fails c key tok b [] err b'
| fails_later tok b out b' outs err b'' :
    ListObjectsV2 (api c) (list_request c key tok) b = (inl out, b') ->
    last_page out = false ->
    serves_then_fails c key (NextContinuationToken out) b' outs err b'' ->
    serves_then_fails c key tok b (out :: outs) err b''.

(** The requests that fetch [pages]: the first with the token [tok], each
    later one with the token of the page before it. *)
Fixpoint requests_for {B} (c : s3Client B) (key : string) (tok : option string)
    (pages : list ListObjectsV2Output) : list ListObjectsV2Input :=
  match pages with
  | [] => []
  | out :: outs =>
      list_request c key tok :: requests_for c key (NextContinuationToken out) outs
  end.

(** The token each page leaves for the request after it. *)
Fixpoint token_after (tok : option string) (pages : list ListObjectsV2Output)
    : option string :=
  match pages with
  | [] => tok
  | out :: outs => token_after (NextContinuationToken out) outs
  end.

(** A backend wrapped so that it keeps a log of the listing requests and of
    the signing requests it receives. *)
Record recorded (B : Type) := mkRecorded {
  inner : B;
  listed : list ListObjectsV2Input;
  signed : list (GetObjectInput * Duration)
}.
Arguments mkRecorded {B} _ _ _.
Arguments inner {B} _.
Arguments listed {B} _.
Arguments signed {B} _.

Definition recording {B} (a : S3API B) : S3API (recorded B) :=
  {| ListObjectsV2 := fun input s =>
       let (res, b') := ListObjectsV2 a input (inner s) in
       (res, mkRecorded b' (listed s ++ [input]) (signed s));
     Presign := fun input d s =>
       let (res, b') := Presign a input d (inner s) in
       (res, mkRecorded b' (listed s) (signed s ++ [(input, d)])) |}.

Definition recording_client {B} (c : s3Client B) : s3Client (recorded B) :=
  {| api := recording (api c); bucket := bucket c |}.

(** A backend that plays a script: the replies to the listing requests in
    order (an error once the script is used up), and a signing function. *)
Definition scripted (sign : GetObjectInput -> Duration -> string + error)
    : S3API (list (ListObjectsV2Output + error)) :=
  {| ListObjectsV2 := fun _ script =>
       match script with
       | [] => (inr "script exhausted", [])
       | reply :: rest => (reply, rest)
       end;
     Presign := fun input d script => (sign input d, script) |}.

(** A signer that puts bucket and key under a fixed host. *)
Definition sign_plain (input : GetObjectInput) (d : Duration) : string + error :=
  inl ("https://s3.test/" +:+ aws_StringValue (get_Bucket input) +:+ "/"
       +:+ aws_StringValue (get_Key input)).

(** A signer that always fails. *)
Definition sign_fails (input : GetObjectInput) (d : Duration) : string + error :=
  inr "no credentials".

Definition test_client (sign : GetObjectInput -> Duration -> string + error)
    : s3Client (list (ListObjectsV2Output + error)) :=
  {| api := scripted sign; bucket := "bkt" |}.

(** A backend that answers every listing request with the same page. *)
Definition repeating (out : ListObjectsV2Output)
    (sign : GetObjectInput -> Duration -> string + error) : S3API Datatypes.unit :=
  {| ListObjectsV2 := fun _ s => (inl out, s);
     Presign := fun input d s => (sign input d, s) |}.

(** Sample pages: two objects and a virtual directory under [photos/]. *)
Definition page_one : ListObjectsV2Output :=
  {| Contents := [ {| Key := Some "photos/a.jpg"; Size := Some 2048;
                      LastModified := Some 1700000000 |} ];
     CommonPrefixes := [ {| Prefix := Some "photos/2020/" |} ];
     IsTruncated := Some true;
     NextContinuationToken := Some "token-1" |}.

Definition page_two : ListObjectsV2Output :=
  {| Contents := [ {| Key := Some "photos/b.jpg"; Size := Some 10;
                      LastModified := Some 1700000001 |} ];
     CommonPrefixes := [];
     IsTruncated := Some false;
     NextContinuationToken := None |}.

(** A page that says it is truncated but carries no token. *)
Definition page_cut : ListObjectsV2Output :=
  {| Contents := [ {| Key := Some "photos/c.jpg"; Size := Some 1;
                      LastModified := None |} ];
     CommonPrefixes := [];
     IsTruncated := Some true;
     NextContinuationToken := None |}.

(** Library functions for the examples: instants printed as numbers, the
    tabwriter and the URL functions as the identity. *)
Definition test_lib : GoLib :=
  {| Format_RFC3339 := fmt_d;
     tabwriter := fun text => text;
     redirect_url := fun _ url => url;
     hexEscapeNonASCII := fun url => url;
     htmlEscape := fun url => url;
     statusText := fun code =>
       if code =? 308 then "Permanent Redirect" else EmptyString |}.

Definition get_request (path : string) : Request :=
  {| Method := "GET"; Host := "gateway.test"; URL_Path := path;
     URL_RawQuery := EmptyString |}.

(** ** Notions the specification uses *)

(** A printed size "stays below 1000": at most three characters precede the
    decimal point. *)
Definition displayed_below_1000 (s : string) : Prop :=
  exists i, String.index 0 "." s = Some i /\ (i <= 3)%nat.

(** The code of the last [WriteHeader] call in a sequence of calls, [code]
    if there is none. *)
Fixpoint last_code (calls : list call) (code : Z) : Z :=
  match calls with
  | [] => code
  | WriteHeader code' :: rest => last_code rest code'
  | _ :: rest => last_code rest code
  end.


(** A directory path with its final segment removed: the trailing separator
    is dropped, then everything after the last separator left. *)
Definition cut_last_segment (q : string) : string :=
  string_take (Z.to_nat (LastIndex q "/" + 1)) q.

Definition remove_final_segment (path : string) : string :=
  cut_last_segment (string_take (String.length path - 1) path).



(** The entries of the specification's example. *)
Definition sample_entries : list file :=
  [ mkFile "b.txt" false 10 1700000000;
    mkFile "a/" true 0 0;
    mkFile "c.txt" false 20 1700000001 ].


(** No separator occurs in [s]. *)
Fixpoint no_slash (s : string) : bool :=
  match s with
  | EmptyString => true
  | String c s' => negb (Ascii.eqb c "/") && no_slash s'
  end.

(** The signing request the renderer makes for an object entry. *)
Definition sign_request {B} (c : s3Client B) (f : file) : GetObjectInput * Duration :=
  ({| get_Bucket := Some (bucket c); get_Key := Some (name f) |}, Minute * 5).

(** The object entries of a listing. *)
Definition objects_of (entries : list file) : list file :=
  List.filter (fun f => negb (isDir f)) entries.

(** The order "not less" that a comparison function induces. *)
Definition not_less {A} (less : A -> A -> bool) (x y : A) : Prop :=
  less y x = false.

(* ================================================================== *)
(** * Part II: properties                                               *)
(* ================================================================== *)

(** ** Strings *)

Lemma append_cons (c : ascii) (s t : string) :
  String c s +:+ t = String c (s +:+ t).
Proof. reflexivity. Qed.

Lemma append_nil_l (s : string) : EmptyString +:+ s = s.
Proof. reflexivity. Qed.

Lemma append_assoc (s t u : string) : (s +:+ t) +:+ u = s +:+ (t +:+ u).
Proof.
  induction s as [|c s IH]; [reflexivity|].
  rewrite !append_cons. simpl. f_equal. exact IH.
Qed.

Lemma append_nil_r (s : string) : s +:+ EmptyString = s.
Proof.
  induction s as [|c s IH]; [reflexivity|].
  rewrite !append_cons. simpl. f_equal. exact IH.
Qed.

Lemma length_append (s t : string) :
  String.length (s +:+ t) = (String.length s + String.length t)%nat.
Proof.
  induction s as [|c s IH]; [reflexivity|].
  rewrite !append_cons. simpl. f_equal. exact IH.
Qed.

(** ** [humanizeBytes] *)
Lemma wrap64_small z : is_int64 z -> wrap64 z = z.
Proof.
  unfold is_int64, int64_min, int64_max, wrap64. intros H.
  rewrite Z.mod_small by lia. lia.
Qed.

Lemma humanize_loop_spec (fuel : nat) :
  forall n div exp,
    1 <= n < 1000 ^ (Z.of_nat fuel + 1) ->
    0 < div -> div * n <= int64_max ->
    exists k, 0 <= k <= Z.of_nat fuel /\
      humanize_loop fuel n div exp = Some (div * 1000 ^ k, exp + k) /\
      1000 ^ k <= n < 1000 ^ (k + 1).
Proof.
  induction fuel as [|fuel IH]; intros n div exp Hn Hdiv Hfit.
  - exists 0. cbn [humanize_loop]. unfold unit.
    change (1000 ^ (Z.of_nat 0 + 1)) with 1000 in Hn.
    destruct (Z.leb_spec 1000 n); [lia|].
    split; [lia|]. split; [f_equal; f_equal; lia|]. 
    change (1000 ^ 0) with 1. change (1000 ^ (0 + 1)) with 1000. lia.
  - cbn [humanize_loop]. unfold unit.
    destruct (Z.leb_spec 1000 n) as [Hge|Hlt].
    + rewrite Z.quot_div_nonneg by lia.
      assert (Hq : 1 <= n / 1000) by (apply Z.div_le_lower_bound; lia).
      assert (Hmul : 1000 * (n / 1000) <= n) by (apply Z.mul_div_le; lia).
      rewrite wrap64_small.
      2:{ unfold is_int64, int64_min, int64_max in *. nia. }
      destruct (IH (n / 1000) (div * 1000) (exp + 1)) as (k & Hk & Heq & Hb).
      * split; [lia|]. apply Z.div_lt_upper_bound; [lia|].
        replace (Z.of_nat (S fuel) + 1) with (Z.succ (Z.of_nat fuel + 1)) in Hn by lia.
        rewrite Z.pow_succ_r in Hn by lia. lia.
      * lia.
      * nia.
      * exists (k + 1). split; [lia|]. split.
        -- rewrite Heq. f_equal. f_equal.
           ++ rewrite Z.pow_add_r by lia. change (1000 ^ 1) with 1000. lia.
           ++ lia.
        -- replace (k + 1 + 1) with (Z.succ (k + 1)) by lia.
           replace (k + 1) with (Z.succ k) by lia.
           rewrite !Z.pow_succ_r by lia.
           destruct Hb as [Hb1 Hb2].
           replace (Z.succ k) with (k + 1) in * by lia.
           split; [lia|].
           assert (n < 1000 * (n / 1000 + 1)).
           { pose proof (Z.mod_pos_bound n 1000 ltac:(lia)).
             pose proof (Z.div_mod n 1000 ltac:(lia)). lia. }
           rewrite Z.pow_add_r in Hb2 by lia. change (1000 ^ 1) with 1000 in Hb2.
           nia.
    + exists 0. split; [lia|]. split; [f_equal; f_equal; lia|].
      change (1000 ^ 0) with 1. change (1000 ^ (0 + 1)) with 1000. lia.
Qed.

Lemma pow1000_6_gt n : n <= int64_max -> n / 1000 < 1000 ^ 6.
Proof.
  unfold int64_max. intros H. apply Z.div_lt_upper_bound; [lia|].
  change (1000 ^ 6) with 1000000000000000000. lia.
Qed.

(** What [humanizeBytes] does above the threshold, for a 64-bit count. *)
Lemma humanizeBytes_scaled (b : Z) :
  is_int64 b -> 1000 <= b ->
  exists exp c,
    0 <= exp <= 5 /\
    humanize_loop humanize_fuel (Z.quot b unit) unit 0 = Some (1000 ^ (exp + 1), exp) /\
    1000 ^ (exp + 1) <= b < 1000 * 1000 ^ (exp + 1) /\
    string_index "kMGTPE" exp = Returns c /\
    humanizeBytes b =
      Returns (fmt_2f (float64_div (float64_of_int b) (float64_of_int (1000 ^ (exp + 1))))
                 +:+ " " +:+ fmt_c c +:+ "B").
Proof.
  intros Hb Hge.
  assert (Hmax : b <= int64_max) by (destruct Hb; assumption).
  assert (Hq : 1 <= b / 1000) by (apply Z.div_le_lower_bound; lia).
  assert (Hmul : 1000 * (b / 1000) <= b) by (apply Z.mul_div_le; lia).
  destruct (humanize_loop_spec humanize_fuel (Z.quot b unit) unit 0)
    as (k & Hk & Heq & Hlo & Hhi).
  - unfold unit. rewrite Z.quot_div_nonneg by lia. split; [lia|].
    pose proof (pow1000_6_gt b Hmax) as H6.
    eapply Z.lt_trans; [exact H6|].
    apply Z.pow_lt_mono_r; unfold humanize_fuel; lia.
  - unfold unit; lia.
  - unfold unit. rewrite Z.quot_div_nonneg by lia. lia.
  - unfold unit in *. rewrite Z.quot_div_nonneg in * by lia.
    rewrite Z.add_0_l in Heq.
    assert (Hk5 : k <= 5).
    { destruct (Z.le_gt_cases k 5) as [|Hgt]; [assumption|exfalso].
      pose proof (pow1000_6_gt b Hmax) as H6.
      assert (1000 ^ 6 <= 1000 ^ k) by (apply Z.pow_le_mono_r; lia). lia. }
    assert (Hpow : 1000 * 1000 ^ k = 1000 ^ (k + 1)).
    { rewrite Z.pow_add_r by lia. change (1000 ^ 1) with 1000. lia. }
    assert (Hidx : exists c, string_index "kMGTPE" k = Returns c).
    { assert (Hc : k = 0 \/ k = 1 \/ k = 2 \/ k = 3 \/ k = 4 \/ k = 5) by lia.
      destruct Hc as [->|[->|[->|[->|[->| ->]]]]]; eexists; reflexivity. }
    destruct Hidx as [c Hc].
    exists k, c. rewrite <- Hpow.
    assert (Hbhi : b < 1000 * (b / 1000 + 1)).
    { pose proof (Z.mod_pos_bound b 1000 ltac:(lia)).
      pose proof (Z.div_mod b 1000 ltac:(lia)). lia. }
    rewrite Z.pow_add_r in Hhi by lia. change (1000 ^ 1) with 1000 in Hhi.
    repeat split; try lia.
    + rewrite Heq. reflexivity.
    + exact Hc.
    + unfold humanizeBytes, unit.
      destruct (Z.ltb_spec b 1000); [lia|].
      rewrite Z.quot_div_nonneg by lia.
      rewrite Heq, Hc. reflexivity.
Qed.

Lemma humanizeBytes_total_in_bounds_aux (b : Z) :
  is_int64 b -> exists s, humanizeBytes b = Returns s.
Proof.
  intros Hb. destruct (Z.lt_ge_cases b 1000) as [Hlt|Hge].
  - eexists. unfold humanizeBytes, unit.
    destruct (Z.ltb_spec b 1000); [reflexivity|lia].
  - destruct (humanizeBytes_scaled b Hb Hge) as (exp & c & _ & _ & _ & _ & Hres).
    eexists. exact Hres.
Qed.

(** C9.  For every 64-bit byte count [humanizeBytes] returns a string: a count
    below 1000, negative ones included, takes the ["<n> B"] branch, and from
    1000 on the loop ends with a unit exponent between 0 and 5, which is a
    valid index into ["kMGTPE"]. *)
Theorem humanizeBytes_total_in_bounds (b : Z) :
  is_int64 b ->
  (exists s, humanizeBytes b = Returns s) /\
  (b < 1000 -> humanizeBytes b = Returns (fmt_d b +:+ " B")) /\
  (1000 <= b ->
     exists div exp c,
       humanize_loop humanize_fuel (Z.quot b unit) unit 0 = Some (div, exp) /\
       0 <= exp <= 5 /\
       string_index "kMGTPE" exp = Returns c).
Proof.
  intros Hb.
  assert (Hsmall : b < 1000 -> humanizeBytes b = Returns (fmt_d b +:+ " B")).
  { intros Hlt. unfold humanizeBytes, unit.
    destruct (Z.ltb_spec b 1000); [reflexivity|lia]. }
  split; [|split].
  - destruct (Z.lt_ge_cases b 1000) as [Hlt|Hge].
    + eexists. apply Hsmall, Hlt.
    + destruct (humanizeBytes_scaled b Hb Hge) as (exp & c & _ & _ & _ & _ & Hres).
      eexists. exact Hres.
  - exact Hsmall.
  - intros Hge.
    destruct (humanizeBytes_scaled b Hb Hge) as (exp & c & Hexp & Hloop & _ & Hc & _).
    exists (1000 ^ (exp + 1)), exp, c. auto.
Qed.

Lemma humanizeBytes_total_in_bounds_witness :
  is_int64 (-7) /\ is_int64 9223372036854775807 /\
  humanizeBytes (-7) = Returns "-7 B" /\
  (exists div exp c,
     humanize_loop humanize_fuel (Z.quot 9223372036854775807 unit) unit 0
       = Some (div, exp) /\ 0 <= exp <= 5 /\
     string_index "kMGTPE" exp = Returns c).
Proof.
  assert (H1 : is_int64 (-7)) by (unfold is_int64, int64_min, int64_max; lia).
  assert (H2 : is_int64 9223372036854775807)
    by (unfold is_int64, int64_min, int64_max; lia).
  split; [exact H1|]. split; [exact H2|]. split.
  - apply (proj1 (proj2 (humanizeBytes_total_in_bounds (-7) H1))). lia.
  - apply (proj2 (proj2 (humanizeBytes_total_in_bounds 9223372036854775807 H2))). lia.
Defined.

Lemma two_digits_length (z : Z) :
  0 <= z < 100 -> String.length (two_digits z) = 2%nat.
Proof.
  intros Hz.
  assert (Hall : forallb (fun n => Nat.eqb (String.length (two_digits (Z.of_nat n))) 2)
                   (seq 0 100) = true) by (vm_compute; reflexivity).
  rewrite forallb_forall in Hall.
  specialize (Hall (Z.to_nat z)).
  rewrite Z2Nat.id in Hall by lia.
  apply Nat.eqb_eq, Hall, in_seq. lia.
Qed.

(** [%.2f] prints an integer part, a point and exactly two digits. *)
Lemma fmt_2f_shape (x : float64) :
  exists ip fr, fmt_2f x = fmt_d ip +:+ "." +:+ fr /\ String.length fr = 2%nat.
Proof.
  unfold fmt_2f.
  set (h := if 0 <=? Fexp x then _ else _).
  exists (h / 100), (two_digits (h mod 100)). split; [reflexivity|].
  apply two_digits_length, Z.mod_pos_bound. lia.
Qed.

(** C7, counterexample.  999999 bytes are shown as ["1000.00 kB"]: the scaled
    value 999.999 is below 1000, the two-decimal figure printed for it is
    not. *)
Lemma humanizeBytes_999999 :
  is_int64 999999 /\
  humanizeBytes 999999 = Returns "1000.00 kB" /\
  ~ displayed_below_1000 "1000.00 kB".
Proof.
  split; [unfold is_int64, int64_min, int64_max; lia|].
  split; [vm_compute; reflexivity|].
  intros (i & Hi & Hle). vm_compute in Hi. injection Hi as <-. lia.
Qed.

(** C7, as amended.  A 64-bit count below 1000 is printed as ["<n> B"].
    From 1000 on, the divisor is the power of 1000 (not 1024) with
    [div <= b < 1000 * div], so the scaled value lies in [[1, 1000)] before
    it is rounded; the unit letter is the one of ["kMGTPE"] at the exponent;
    the quotient of the two doubles is printed with exactly two decimals
    (rounding may print 1000.00).  The five sample values come out as
    stated. *)
Theorem humanizeBytes_format (b : Z) :
  is_int64 b ->
  (b < 1000 -> humanizeBytes b = Returns (fmt_d b +:+ " B")) /\
  (1000 <= b ->
     exists exp c ip fr,
       0 <= exp <= 5 /\
       String.get (Z.to_nat exp) "kMGTPE" = Some c /\
       1000 ^ (exp + 1) <= b < 1000 * 1000 ^ (exp + 1) /\
       fmt_2f (float64_div (float64_of_int b) (float64_of_int (1000 ^ (exp + 1))))
         = fmt_d ip +:+ "." +:+ fr /\
       String.length fr = 2%nat /\
       humanizeBytes b = Returns (fmt_d ip +:+ "." +:+ fr +:+ " " +:+ fmt_c c +:+ "B")) /\
  humanizeBytes 0 = Returns "0 B" /\
  humanizeBytes 999 = Returns "999 B" /\
  humanizeBytes 1000 = Returns "1.00 kB" /\
  humanizeBytes 1500000 = Returns "1.50 MB" /\
  humanizeBytes 1000000000000 = Returns "1.00 TB".
Proof.
  intros Hb. split; [|split].
  - intros Hlt. unfold humanizeBytes, unit.
    destruct (Z.ltb_spec b 1000); [reflexivity|lia].
  - intros Hge.
    destruct (humanizeBytes_scaled b Hb Hge) as (exp & c & Hexp & _ & Hrange & Hc & Hres).
    destruct (fmt_2f_shape
                (float64_div (float64_of_int b) (float64_of_int (1000 ^ (exp + 1)))))
      as (ip & fr & Hfmt & Hlen).
    exists exp, c, ip, fr. repeat split; try lia; try assumption.
    + unfold string_index in Hc.
      destruct (Z.ltb_spec exp 0); [lia|].
      destruct (get (Z.to_nat exp) "kMGTPE"); [injection Hc as ->; reflexivity|discriminate].
    + rewrite Hres, Hfmt.
      rewrite !append_assoc. reflexivity.
  - repeat split; vm_compute; reflexivity.
Qed.

Lemma humanizeBytes_format_witness :
  is_int64 2048 /\ is_int64 (-3) /\
  humanizeBytes (-3) = Returns (fmt_d (-3) +:+ " B") /\
  exists exp c ip fr,
    0 <= exp <= 5 /\
    String.get (Z.to_nat exp) "kMGTPE" = Some c /\
    1000 ^ (exp + 1) <= 2048 < 1000 * 1000 ^ (exp + 1) /\
    fmt_2f (float64_div (float64_of_int 2048) (float64_of_int (1000 ^ (exp + 1))))
      = fmt_d ip +:+ "." +:+ fr /\
    String.length fr = 2%nat /\
    humanizeBytes 2048 = Returns (fmt_d ip +:+ "." +:+ fr +:+ " " +:+ fmt_c c +:+ "B").
Proof.
  assert (H : is_int64 2048) by (unfold is_int64, int64_min, int64_max; lia).
  assert (H' : is_int64 (-3)) by (unfold is_int64, int64_min, int64_max; lia).
  split; [exact H|]. split; [exact H'|]. split.
  - apply (proj1 (humanizeBytes_format (-3) H')). lia.
  - apply (proj1 (proj2 (humanizeBytes_format 2048 H))). lia.
Defined.

(** ** [listObjectsByPrefix] *)

Lemma prefix_nil (s : string) : String.prefix EmptyString s = true.
Proof. now destruct s. Qed.




Lemma requests_for_length {B} (c : s3Client B) key tok pages :
  length (requests_for c key tok pages) = length pages.
Proof.
  revert tok. induction pages as [|out outs IH]; intros tok; cbn; [reflexivity|].
  now rewrite IH.
Qed.

Lemma requests_for_app {B} (c : s3Client B) key tok pages more :
  requests_for c key tok (pages ++ more)
  = requests_for c key tok pages ++ requests_for c key (token_after tok pages) more.
Proof.
  revert tok. induction pages as [|out outs IH]; intros tok; cbn; [reflexivity|].
  now rewrite IH.
Qed.

(** The loop on a backend that serves [pages]: one request per page, all
    their files in order. *)
Lemma list_loop_serves {B} (c : s3Client B) key tok b pages b' :
  serves c key tok b pages b' ->
  forall fuel files,
    (length pages <= fuel)%nat ->
    list_loop fuel c key tok files b
    = (Returns (files ++ concat (map page_files pages), None), b').
Proof.
  induction 1 as [tok b out b' Hcall Hlast | tok b out b' outs b'' Hcall Hmore _ IH];
    intros fuel files Hfuel; (destruct fuel as [|fuel]; [cbn in Hfuel; lia|]);
    cbn [list_loop]; rewrite Hcall.
  - rewrite Hlast. cbn. now rewrite app_nil_r.
  - rewrite Hmore. rewrite IH by (cbn in Hfuel; lia).
    cbn. now rewrite app_assoc.
Qed.

(** The same run, seen by a backend that logs its requests. *)
Lemma list_loop_serves_recorded {B} (c : s3Client B) key tok b pages b' :
  serves c key tok b pages b' ->
  forall fuel files log sg,
    (length pages <= fuel)%nat ->
    list_loop fuel (recording_client c) key tok files (mkRecorded b log sg)
    = (Returns (files ++ concat (map page_files pages), None),
       mkRecorded b' (log ++ requests_for c key tok pages) sg).
Proof.
  induction 1 as [tok b out b' Hcall Hlast | tok b out b' outs b'' Hcall Hmore _ IH];
    intros fuel files log sg Hfuel; (destruct fuel as [|fuel]; [cbn in Hfuel; lia|]);
    cbn [list_loop recording_client api recording ListObjectsV2 inner listed signed];
    unfold list_request in *; cbn [bucket recording_client] in *; rewrite Hcall.
  - rewrite Hlast. cbn. now rewrite app_nil_r.
  - rewrite Hmore.
    specialize (IH fuel (files ++ page_files out)
                  (log ++ [{| in_Bucket := aws_String (bucket c);
                              in_Delimiter := aws_String "/";
                              in_Prefix := aws_String key;
                              in_ContinuationToken := tok |}]) sg).
    cbn [recording_client api] in IH. rewrite IH by (cbn in Hfuel; lia).
    cbn. now rewrite <- !app_assoc.
Qed.





(** The loop on a backend whose request after [pages] fails. *)
Lemma list_loop_fails {B} (c : s3Client B) key tok b pages err b' :
  serves_then_fails c key tok b pages err b' ->
  forall fuel files,
    (length pages < fuel)%nat ->
    list_loop fuel c key tok files b = (Returns ([], Some err), b').
Proof.
  induction 1 as [tok b err b' Hcall | tok b out b' outs err b'' Hcall Hmore _ IH];
    intros fuel files Hfuel; (destruct fuel as [|fuel]; [cbn in Hfuel; lia|]);
    cbn [list_loop]; rewrite Hcall.
  - reflexivity.
  - rewrite Hmore. apply IH. cbn in Hfuel. lia.
Qed.

Lemma list_loop_fails_recorded {B} (c : s3Client B) key tok b pages err b' :
  serves_then_fails c key tok b pages err b' ->
  forall fuel files log sg,
    (length pages < fuel)%nat ->
    list_loop fuel (recording_client c) key tok files (mkRecorded b log sg)
    = (Returns ([], Some err),
       mkRecorded b'
         (log ++ requests_for c key tok pages
              ++ [list_request c key (token_after tok pages)]) sg).
Proof.
  induction 1 as [tok b err b' Hcall | tok b out b' outs err b'' Hcall Hmore _ IH];
    intros fuel files log sg Hfuel; (destruct fuel as [|fuel]; [cbn in Hfuel; lia|]);
    cbn [list_loop recording_client api recording ListObjectsV2 inner listed signed];
    unfold list_request in *; cbn [bucket recording_client] in *; rewrite Hcall.
  - reflexivity.
  - rewrite Hmore.
    specialize (IH fuel (files ++ page_files out)
                  (log ++ [{| in_Bucket := aws_String (bucket c);
                              in_Delimiter := aws_String "/";
                              in_Prefix := aws_String key;
                              in_ContinuationToken := tok |}]) sg).
    cbn [recording_client api] in IH. rewrite IH by (cbn in Hfuel; lia).
    cbn. now rewrite <- !app_assoc.
Qed.

Lemma last_page_iff out :
  last_page out = true <->
  (aws_BoolValue (IsTruncated out) = false \/ NextContinuationToken out = None).
Proof.
  unfold last_page.
  destruct (aws_BoolValue (IsTruncated out)), (NextContinuationToken out);
    cbn; intuition congruence.
Qed.

(** C10.  Whenever the backend comes to a page that is not marked truncated
    (flag false or absent) or that carries no continuation token,
    [listObjectsByPrefix] returns: with fuel for one request per page it
    yields the files gathered up to and including that page, and a backend
    that logs its requests has seen exactly one request per page, none after
    the last page.  In particular a page marked truncated without a token
    ends the loop. *)
Theorem listObjectsByPrefix_terminates {B} (c : s3Client B) (path : string)
    (b : B) (pages : list ListObjectsV2Output) (b' : B) (fuel : nat) :
  serves c (TrimPrefix path "/") None b pages b' ->
  (length pages <= fuel)%nat ->
  (exists files, listObjectsByPrefix fuel c path b = (Returns (files, None), b')) /\
  (forall log sg, exists files reqs,
     listObjectsByPrefix fuel (recording_client c) path (mkRecorded b log sg)
     = (Returns (files, None), mkRecorded b' (log ++ reqs) sg) /\
     length reqs = length pages) /\
  (forall out,
     last_page out = true <->
     (aws_BoolValue (IsTruncated out) = false \/ NextContinuationToken out = None)) /\
  (forall tok files b0 out b1 n,
     ListObjectsV2 (api c) (list_request c (TrimPrefix path "/") tok) b0 = (inl out, b1) ->
     IsTruncated out = Some true -> NextContinuationToken out = None ->
     list_loop (S n) c (TrimPrefix path "/") tok files b0
     = (Returns (files ++ page_files out, None), b1)).
Proof.
  intros Hserves Hfuel. repeat split.
  - eexists. unfold listObjectsByPrefix.
    now rewrite (list_loop_serves _ _ _ _ _ _ Hserves fuel [] Hfuel).
  - intros log sg. do 2 eexists. split.
    + unfold listObjectsByPrefix.
      now rewrite (list_loop_serves_recorded _ _ _ _ _ _ Hserves fuel [] log sg Hfuel).
    + apply requests_for_length.
  - apply last_page_iff.
  - apply last_page_iff.
  - intros tok files b0 out b1 n Hcall Htr Htok.
    cbn [list_loop]. rewrite Hcall.
    assert (Hlast : last_page out = true) by (apply last_page_iff; now right).
    now rewrite Hlast.
Qed.

Lemma listObjectsByPrefix_terminates_witness :
  serves (test_client sign_plain) (TrimPrefix "/photos/" "/") None
    [inl page_one; inl page_cut; inl page_two] [page_one; page_cut] [inl page_two] /\
  (exists files,
     listObjectsByPrefix 2 (test_client sign_plain) "/photos/"
       [inl page_one; inl page_cut; inl page_two]
     = (Returns (files, None), [inl page_two])) /\
  list_loop 1 (test_client sign_plain) (TrimPrefix "/photos/" "/") None []
    [inl page_cut; inl page_two]
  = (Returns ([] ++ page_files page_cut, None), [inl page_two]).
Proof.
  assert (H : serves (test_client sign_plain) (TrimPrefix "/photos/" "/") None
                [inl page_one; inl page_cut; inl page_two] [page_one; page_cut]
                [inl page_two]).
  { eapply serves_next; [reflexivity|reflexivity|].
    eapply serves_last; reflexivity. }
  pose proof (listObjectsByPrefix_terminates (test_client sign_plain) "/photos/"
                _ _ _ 2%nat H ltac:(cbn; lia)) as (Hret & _ & _ & Hcut).
  split; [exact H|]. split; [exact Hret|].
  apply (Hcut None [] [inl page_cut; inl page_two] page_cut [inl page_two] 0%nat);
    reflexivity.
Defined.

(** ** Running a handler's calls *)

Lemma run_seq {W} (impl : ResponseWriter W) (p q : prog) (w : W) :
  run impl (seq_prog p q) w = run impl q (run impl p w).
Proof.
  revert w. induction p as [|c k IH|key k IH]; intros w; cbn.
  - reflexivity.
  - apply IH.
  - apply IH.
Qed.

Lemma trace_seq {W} (impl : ResponseWriter W) (p q : prog) (w : W) :
  trace impl (seq_prog p q) w = trace impl p w ++ trace impl q (run impl p w).
Proof.
  revert w. induction p as [|c k IH|key k IH]; intros w; cbn.
  - reflexivity.
  - now rewrite IH.
  - apply IH.
Qed.

Lemma run_do_all {W} (impl : ResponseWriter W) (cs : list call) (k : prog) (w : W) :
  run impl (do_all cs k) w = run impl k (fold_left (fun w c => do_call impl c w) cs w).
Proof.
  revert w. induction cs as [|c cs IH]; intros w; cbn; [reflexivity|]. apply IH.
Qed.

(** [http.Error] on a response that has not been started: the status is the
    one given, the body is the message and a newline. *)
Lemma http_Error_fresh (err : string) (code : Z) :
  bodyAllowedForStatus code = true ->
  let w := run net_http (http_Error err code) new_response in
  wroteHeader w = true /\ status w = code /\ body w = err +:+ LF /\
  sentHeader w !! "Content-Type" = Some "text/plain; charset=utf-8".
Proof.
  intros Hok. cbn. unfold response_Write. cbn. rewrite Hok. cbn.
  repeat split.
Qed.

(** ** [responseWriter] and [withLogging] *)

Lemma wrapper_run {W} (impl : ResponseWriter W) (p : prog) (w : W) (code : Z) :
  run (responseWriter_methods impl) p (mkWrapper w code)
  = mkWrapper (run impl p w) (last_code (trace impl p w) code).
Proof.
  revert w code. induction p as [|c k IH|key k IH]; intros w code; cbn.
  - reflexivity.
  - destruct c; cbn; apply IH.
  - apply IH.
Qed.



Lemma withLogging_run {B W} (impl : ResponseWriter W) (elapsed : string)
    (h : Handler B) (r : Request) (w : W) (b : B) (p : prog) (b' : B) :
  h r b = (Returns p, b') ->
  withLogging impl elapsed h r w b
  = (Returns (run impl p w,
              log_line r elapsed (last_code (trace impl p w) StatusOK)), b').
Proof. intros Hh. unfold withLogging. now rewrite Hh, wrapper_run. Qed.



(** ** [buildHandler] *)

(** C2.  When some page request fails, after any number of pages that each
    announced a next page, [listObjectsByPrefix] returns that error with no
    entries (the files of the earlier pages are dropped); the failing
    request is the last one the backend sees; and for a directory path the
    handler answers with [http.Error]: status 500, content type text/plain,
    and the error text (followed by a newline) as body.  The log line
    carries 500 as well. *)
Theorem listing_error_gives_500 {B} (lib : GoLib) (c : s3Client B) (r : Request)
    (b : B) (pages : list ListObjectsV2Output) (err : error) (b' : B)
    (fuel : nat) (elapsed : string) :
  HasSuffix (URL_Path r) "/" = true ->
  serves_then_fails c (TrimPrefix (URL_Path r) "/") None b pages err b' ->
  (length pages < fuel)%nat ->
  listObjectsByPrefix fuel c (URL_Path r) b = (Returns ([], Some err), b') /\
  (forall log sg, exists reqs,
     listObjectsByPrefix fuel (recording_client c) (URL_Path r) (mkRecorded b log sg)
     = (Returns ([], Some err), mkRecorded b' (log ++ reqs) sg) /\
     length reqs = S (length pages)) /\
  buildHandler lib fuel c r b
  = (Returns (http_Error err StatusInternalServerError), b') /\
  exists w,
    gateway lib fuel elapsed c r b = (Returns (w, log_line r elapsed 500), b') /\
    wroteHeader w = true /\ status w = 500 /\ body w = err +:+ LF /\
    sentHeader w !! "Content-Type" = Some "text/plain; charset=utf-8".
Proof.
  intros Hdir Hfails Hfuel.
  assert (Hlist : listObjectsByPrefix fuel c (URL_Path r) b = (Returns ([], Some err), b')).
  { unfold listObjectsByPrefix.
    apply (list_loop_fails _ _ _ _ _ _ _ Hfails fuel [] Hfuel). }
  assert (Hh : buildHandler lib fuel c r b
               = (Returns (http_Error err StatusInternalServerError), b')).
  { unfold buildHandler. now rewrite Hdir, Hlist. }
  split; [exact Hlist|]. split; [|split; [exact Hh|]].
  - intros log sg. eexists. split.
    + unfold listObjectsByPrefix.
      apply (list_loop_fails_recorded _ _ _ _ _ _ _ Hfails fuel [] log sg Hfuel).
    + rewrite length_app, requests_for_length. cbn. lia.
  - exists (run net_http (http_Error err StatusInternalServerError) new_response).
    split.
    + unfold gateway.
      now rewrite (withLogging_run net_http elapsed _ r new_response b _ b' Hh).
    + apply (http_Error_fresh err StatusInternalServerError). reflexivity.
Qed.

Lemma listing_error_gives_500_witness :
  let c := test_client sign_plain in
  let script := [inl page_one; inr "backend down"; inl page_two] in
  HasSuffix "/photos/" "/" = true /\
  serves_then_fails c (TrimPrefix "/photos/" "/") None script [page_one]
    "backend down" [inl page_two] /\
  listObjectsByPrefix 5 c "/photos/" script
  = (Returns ([], Some "backend down"), [inl page_two]).
Proof.
  cbn zeta.
  assert (H : serves_then_fails (test_client sign_plain) (TrimPrefix "/photos/" "/")
                None [inl page_one; inr "backend down"; inl page_two] [page_one]
                "backend down" [inl page_two]).
  { eapply fails_later; [reflexivity|reflexivity|]. eapply fails_now. reflexivity. }
  split; [reflexivity|]. split; [exact H|].
  apply (proj1 (listing_error_gives_500 test_lib (test_client sign_plain)
                  (get_request "/photos/") _ _ _ _ 5%nat "1ms" eq_refl H
                  ltac:(cbn; lia))).
Defined.

(** What the handler does for a path without trailing separator: one
    signing request, for the request path as it is. *)
Lemma buildHandler_object_mode {B} (lib : GoLib) (fuel : nat) (c : s3Client B)
    (r : Request) (b : B) :
  HasSuffix (URL_Path r) "/" = false ->
  buildHandler lib fuel c r b
  = match Presign (api c)
            {| get_Bucket := Some (bucket c); get_Key := Some (URL_Path r) |}
            (Minute * 5) b with
    | (inr err, b1) => (Returns (http_Error err StatusInternalServerError), b1)
    | (inl link, b1) =>
        (Returns (http_Redirect lib r link StatusPermanentRedirect), b1)
    end.
Proof. intros Hobj. unfold buildHandler. now rewrite Hobj. Qed.


(** ** [renderFileList] *)




(** C5, the code at [GET /photos/] when the link for the one object of the
    listing cannot be signed.  The client receives status 200 with the HTML
    content type and a body made of the head of the page (the [<pre>] line,
    the path, the link to the parent) followed by the error text; the log
    line says 500. *)
Lemma render_error_is_sent_as_200 :
  let c := test_client sign_fails in
  let r := get_request "/photos/" in
  exists w,
    gateway test_lib 5 "1ms" c r [inl page_two]
    = (Returns (w, log_line r "1ms" 500), []) /\
    status w = 200 /\
    sentHeader w !! "Content-Type" = Some "text/html; charset=utf-8" /\
    body w = "<pre>" +:+ LF +:+ "/photos/" +:+ LF +:+ LF
             +:+ "<a href=" +:+ DQ +:+ "/photos/.." +:+ DQ +:+ ">..</a>" +:+ LF
             +:+ "error getting presigned link for photos/b.jpg: no credentials"
             +:+ LF.
Proof.
  cbn zeta. eexists. split; [vm_compute; reflexivity|].
  split; [reflexivity|]. split; reflexivity.
Qed.


(** *** The link to the parent directory *)

Lemma prefix_slash_cons (c : ascii) (s : string) :
  String.prefix "/" (String c s) = if Ascii.ascii_dec "/" c then true else false.
Proof.
  change (String.prefix "/" (String c s))
    with (if Ascii.ascii_dec "/" c then String.prefix EmptyString s else false).
  destruct (Ascii.ascii_dec "/" c); [apply prefix_nil|reflexivity].
Qed.

Lemma LastIndex_from_app (s t : string) (i last : Z) :
  LastIndex_from (s +:+ t) "/" i last
  = LastIndex_from t "/" (i + Z.of_nat (String.length s)) (LastIndex_from s "/" i last).
Proof.
  revert i last. induction s as [|c s IH]; intros i last.
  - rewrite append_nil_l. cbn. f_equal. lia.
  - rewrite append_cons. cbn [LastIndex_from String.length].
    rewrite !prefix_slash_cons, IH. f_equal. lia.
Qed.

Lemma LastIndex_trailing_slash (q : string) :
  LastIndex (q +:+ "/") "/" = Z.of_nat (String.length q).
Proof.
  unfold LastIndex. rewrite LastIndex_from_app. cbn. lia.
Qed.

Lemma string_take_app (s t : string) :
  string_take (String.length s) (s +:+ t) = s.
Proof.
  induction s as [|c s IH]; [now destruct t|].
  rewrite append_cons. cbn. now rewrite IH.
Qed.

Lemma string_drop_app (s t : string) :
  string_drop (String.length s) (s +:+ t) = t.
Proof.
  induction s as [|c s IH]; [now destruct t|].
  rewrite append_cons. cbn. exact IH.
Qed.

(** A path with a trailing separator is some [q] followed by ["/"]. *)
Lemma HasSuffix_slash (path : string) :
  HasSuffix path "/" = true ->
  path = string_take (String.length path - 1) path +:+ "/".
Proof.
  unfold HasSuffix. intros H. apply andb_true_iff in H as [Hlen Heq].
  apply Nat.leb_le in Hlen. apply String.eqb_eq in Heq. cbn in Hlen, Heq.
  revert Hlen Heq. generalize (String.length path - 1)%nat as n.
  induction path as [|c s IH]; intros n Hlen Heq.
  - cbn in Hlen. lia.
  - destruct n as [|n].
    + cbn in Heq. now rewrite Heq.
    + cbn [string_take string_drop] in *. rewrite append_cons. f_equal.
      destruct s as [|c' s'].
      * destruct n; cbn in Heq; discriminate.
      * apply IH; [cbn; lia|exact Heq].
Qed.

Lemma HasSuffix_app_slash (q : string) : HasSuffix (q +:+ "/") "/" = true.
Proof.
  unfold HasSuffix. rewrite length_append. cbn [String.length].
  replace (String.length q + 1 - 1)%nat with (String.length q) by lia.
  rewrite string_drop_app. apply andb_true_iff. split; [apply Nat.leb_le; lia|reflexivity].
Qed.

Lemma length_take_last (q : string) :
  string_take (String.length (q +:+ "/") - 1) (q +:+ "/") = q.
Proof.
  rewrite length_append. cbn [String.length].
  replace (String.length q + 1 - 1)%nat with (String.length q) by lia.
  apply string_take_app.
Qed.

(** The [href] for a directory path [q/]: [q/..], never a panic. *)
Lemma up_href_directory (q : string) :
  up_href (q +:+ "/") = Returns (q +:+ "/..").
Proof.
  unfold up_href, slice_to. rewrite LastIndex_trailing_slash.
  rewrite length_append. cbn [String.length].
  destruct (Z.ltb_spec (Z.of_nat (String.length q)) 0); [lia|].
  destruct (Z.ltb_spec (Z.of_nat (String.length q + 1)) (Z.of_nat (String.length q)));
    [lia|].
  cbn [orb]. rewrite Nat2Z.id, string_take_app. reflexivity.
Qed.





Example up_link_sample :
  up_writes "/photos/2020/"
  = Returns [Write ("<a href=" +:+ DQ +:+ "/photos/2020/.." +:+ DQ +:+ ">..</a>" +:+ LF)]
  /\ remove_final_segment "/photos/2020/" = "/photos/".
Proof. split; reflexivity. Qed.

(** ** [sort.Slice] sorts

    The comparison is assumed to be a strict weak order, as [sort.Slice]
    requires of its [less]. *)

Section SortSliceCorrect.
Context {A : Type} (less : A -> A -> bool).
Hypothesis less_irrefl : forall x, less x x = false.
Hypothesis less_trans :
  forall x y z, less x y = true -> less y z = true -> less x z = true.
Hypothesis less_ge_trans :
  forall x y z, less y x = false -> less z y = false -> less z x = false.

Local Open Scope nat_scope.
Local Abbreviation Less := (Less less).
Local Abbreviation sorted_range := (sorted_range less).
Local Abbreviation insertion_inner := (insertion_inner less).
Local Abbreviation insertion_outer := (insertion_outer less).
Local Abbreviation insertionSort_func := (insertionSort_func less).
Local Abbreviation gap_pass := (gap_pass less).
Local Abbreviation siftDown_loop := (siftDown_loop less).
Local Abbreviation siftDown_func := (siftDown_func less).
Local Abbreviation heap_build := (heap_build less).
Local Abbreviation heap_pop := (heap_pop less).
Local Abbreviation heapSort_func := (heapSort_func less).
Local Abbreviation medianOfThree_func := (medianOfThree_func less).
Local Abbreviation pivot_loop := (pivot_loop less).
Local Abbreviation protect_loop := (protect_loop less).
Local Abbreviation doPivot_func := (doPivot_func less).
Local Abbreviation choose_pivot := (choose_pivot less).
Local Abbreviation check_dups := (check_dups less).
Local Abbreviation partitioned := (partitioned less).
Local Abbreviation pivoted := (pivoted less).
Local Abbreviation quickSort_func := (quickSort_func less).
Local Abbreviation sort_Slice := (sort_Slice less).
Local Abbreviation heap_at := (heap_at less).
Local Abbreviation heap_from := (heap_from less).
Implicit Types (l data : list A) (i j k u v a b : nat).

Lemma transp_invol i j u : transp i j (transp i j u) = u.
Proof. unfold transp. repeat case_decide; lia. Qed.

Lemma transp_range i j u a b :
  a <= i < b -> a <= j < b -> a <= u < b -> a <= transp i j u < b.
Proof. unfold transp. repeat case_decide; lia. Qed.

Lemma transp_outside i j u : u <> i -> u <> j -> transp i j u = u.
Proof. unfold transp. repeat case_decide; lia. Qed.

Lemma Swap_lookup l i j u :
  i < length l -> j < length l -> Swap l i j !! u = l !! transp i j u.
Proof.
  intros Hi Hj.
  destruct (lookup_lt_is_Some_2 l i Hi) as [x Hx].
  destruct (lookup_lt_is_Some_2 l j Hj) as [y Hy].
  unfold Swap, transp. rewrite Hx, Hy, !list_lookup_insert, length_insert.
  repeat case_decide; destruct_and?; subst; try lia; congruence.
Qed.

Lemma Swap_out_of_range l i j :
  length l <= i \/ length l <= j -> Swap l i j = l.
Proof.
  intros [H|H]; apply lookup_ge_None_2 in H; unfold Swap; rewrite H;
    [reflexivity|now destruct (l !! i)].
Qed.

Lemma Swap_length l i j : length (Swap l i j) = length l.
Proof.
  unfold Swap. destruct (l !! i), (l !! j); try reflexivity.
  now rewrite !length_insert.
Qed.

Lemma Swap_perm l i j : Swap l i j ≡ₚ l.
Proof.
  destruct (Nat.lt_ge_cases i (length l)) as [Hi|Hi];
    [destruct (Nat.lt_ge_cases j (length l)) as [Hj|Hj]|].
  - apply Permutation_inj. split; [apply Swap_length|].
    exists (transp i j). split.
    + intros u v Huv. rewrite <- (transp_invol i j u), Huv. apply transp_invol.
    + intros u. now apply Swap_lookup.
  - rewrite Swap_out_of_range by auto. reflexivity.
  - rewrite Swap_out_of_range by auto. reflexivity.
Qed.

Lemma Swap_same l i : Swap l i i = l.
Proof.
  destruct (Nat.lt_ge_cases i (length l)) as [Hi|Hi].
  - apply list_eq. intros u. rewrite Swap_lookup by assumption.
    f_equal. unfold transp. repeat case_decide; lia.
  - apply Swap_out_of_range. auto.
Qed.

Lemma Less_ext l l' i i' j j' :
  l !! i = l' !! i' -> l !! j = l' !! j' -> Less l i j = Less l' i' j'.
Proof. unfold Less. now intros -> ->. Qed.

Lemma Less_Swap l i j u v :
  i < length l -> j < length l ->
  Less (Swap l i j) u v = Less l (transp i j u) (transp i j v).
Proof. intros Hi Hj. apply Less_ext; now apply Swap_lookup. Qed.

Lemma Less_true_lt l i j : Less l i j = true -> i < length l /\ j < length l.
Proof.
  unfold Less. destruct (l !! i) eqn:Hi; [|discriminate].
  destruct (l !! j) eqn:Hj; [|discriminate].
  intros _. split; eapply lookup_lt_Some; eassumption.
Qed.

Lemma Less_irrefl l i : Less l i i = false.
Proof. unfold Less. destruct (l !! i); [apply less_irrefl|reflexivity]. Qed.

Lemma Less_trans l i j k :
  Less l i j = true -> Less l j k = true -> Less l i k = true.
Proof.
  unfold Less. destruct (l !! i), (l !! j), (l !! k); try discriminate.
  apply less_trans.
Qed.

Lemma Less_asym l i j : Less l i j = true -> Less l j i = false.
Proof.
  intros H. destruct (Less l j i) eqn:H'; [|reflexivity].
  pose proof (Less_trans _ _ _ _ H H') as Hii. now rewrite Less_irrefl in Hii.
Qed.

(** [l[i] <= l[j]] and [l[j] <= l[k]] give [l[i] <= l[k]]. *)
Lemma Less_ge_trans l i j k :
  j < length l ->
  Less l j i = false -> Less l k j = false -> Less l k i = false.
Proof.
  intros Hj. destruct (lookup_lt_is_Some_2 l j Hj) as [y Hy].
  unfold Less. rewrite Hy. destruct (l !! i), (l !! k); try reflexivity.
  apply less_ge_trans.
Qed.

(** [l[i] < l[j]] and [l[j] <= l[k]] give [l[i] < l[k]]. *)
Lemma Less_lt_ge l i j k :
  k < length l ->
  Less l i j = true -> Less l k j = false -> Less l i k = true.
Proof.
  intros Hk Hij Hjk. destruct (Less l i k) eqn:Hik; [reflexivity|].
  pose proof (Less_ge_trans l j k i Hk Hjk Hik) as H. congruence.
Qed.

(** [l[i] <= l[j]] and [l[j] < l[k]] give [l[i] < l[k]]. *)
Lemma Less_ge_lt l i j k :
  i < length l ->
  Less l j i = false -> Less l j k = true -> Less l i k = true.
Proof.
  intros Hi Hij Hjk. destruct (Less l i k) eqn:Hik; [reflexivity|].
  pose proof (Less_ge_trans l k i j Hi Hik Hij) as H. congruence.
Qed.

(** *** Exchanges inside a range *)

Lemma swaps_in_swap l a b i j :
  a <= i < b -> a <= j < b -> swaps_in a b l (Swap l i j).
Proof. intros. apply swaps_step; [apply swaps_refl|assumption..]. Qed.

Lemma swaps_in_trans a b l1 l2 l3 :
  swaps_in a b l1 l2 -> swaps_in a b l2 l3 -> swaps_in a b l1 l3.
Proof.
  intros H12 H23. induction H23 as [|l2 l3 i j _ IH Hi Hj]; [assumption|].
  apply swaps_step; auto.
Qed.

Lemma swaps_in_mono a b a' b' l l' :
  a' <= a -> b <= b' -> swaps_in a b l l' -> swaps_in a' b' l l'.
Proof.
  intros Ha Hb H. induction H as [|l l' i j _ IH Hi Hj]; [apply swaps_refl|].
  apply swaps_step; [assumption|lia|lia].
Qed.

Lemma swaps_in_length a b l l' : swaps_in a b l l' -> length l' = length l.
Proof.
  induction 1 as [|l l' i j _ IH Hi Hj]; [reflexivity|].
  now rewrite Swap_length.
Qed.

Lemma swaps_in_perm a b l l' : swaps_in a b l l' -> l' ≡ₚ l.
Proof.
  induction 1 as [|l l' i j _ IH Hi Hj]; [reflexivity|].
  now rewrite Swap_perm.
Qed.

Lemma swaps_in_outside a b l l' u :
  swaps_in a b l l' -> ~ (a <= u < b) -> l' !! u = l !! u.
Proof.
  intros H Hu. induction H as [|l l' i j _ IH Hi Hj]; [reflexivity|].
  destruct (Nat.lt_ge_cases i (length l')) as [Hil|Hil];
    [destruct (Nat.lt_ge_cases j (length l')) as [Hjl|Hjl]|].
  - rewrite Swap_lookup, transp_outside by (assumption || lia). exact IH.
  - rewrite Swap_out_of_range by auto. exact IH.
  - rewrite Swap_out_of_range by auto. exact IH.
Qed.

Lemma swaps_in_inside a b l l' u :
  swaps_in a b l l' -> a <= u < b ->
  exists v, a <= v < b /\ l' !! u = l !! v.
Proof.
  intros H. revert u. induction H as [|l l' i j _ IH Hi Hj]; intros u Hu.
  - exists u. auto.
  - destruct (Nat.lt_ge_cases i (length l')) as [Hil|Hil];
      [destruct (Nat.lt_ge_cases j (length l')) as [Hjl|Hjl]|].
    + rewrite Swap_lookup by assumption. apply IH. now apply transp_range.
    + rewrite Swap_out_of_range by auto. now apply IH.
    + rewrite Swap_out_of_range by auto. now apply IH.
Qed.

(** *** Insertion sort *)

Lemma sorted_range_short l a b : b <= a + 1 -> sorted_range l a b.
Proof.
  intros Hb i j Hi Hij Hj. replace j with i by lia. apply Less_irrefl.
Qed.

(** The inner loop moves [l[k]] down into the sorted part below it. *)
Lemma insertion_inner_spec a top : forall k l,
  a <= k -> k <= top -> top < length l ->
  (forall i j, a <= i -> i <= j -> j <= top -> i <> k -> j <> k ->
               Less l j i = false) ->
  (forall i, k < i -> i <= top -> Less l k i = true) ->
  swaps_in a (S top) l (insertion_inner l a k) /\
  sorted_range (insertion_inner l a k) a (S top).
Proof.
  assert (Hstop : forall k l,
    a <= k -> k <= top -> top < length l ->
    (forall i j, a <= i -> i <= j -> j <= top -> i <> k -> j <> k ->
                 Less l j i = false) ->
    (forall i, k < i -> i <= top -> Less l k i = true) ->
    (k = a \/ Less l k (k - 1) = false) ->
    sorted_range l a (S top)).
  { intros k l Ha Hk Hlen Hsorted Hup Hdown i j Hi Hij Hj.
    destruct (decide (i = j)) as [->|Hne]; [apply Less_irrefl|].
    destruct (decide (i = k)) as [->|Hik].
    - apply Less_asym, Hup; lia.
    - destruct (decide (j = k)) as [->|Hjk]; [|apply Hsorted; lia].
      destruct Hdown as [->|Hdown]; [lia|].
      destruct (decide (i = k - 1)) as [->|Hik']; [exact Hdown|].
      apply (Less_ge_trans l i (k - 1) k); [lia| |exact Hdown].
      apply Hsorted; lia. }
  induction k as [|k' IH]; intros l Ha Hk Hlen Hsorted Hup.
  - cbn [insertion_inner]. split; [apply swaps_refl|].
    apply (Hstop 0 l); auto. left. lia.
  - cbn [insertion_inner].
    destruct ((a <? S k') && Less l (S k') k') eqn:Htest.
    + apply andb_true_iff in Htest as [Hlt Hless]. apply Nat.ltb_lt in Hlt.
      assert (Hsw : forall u v,
                Less (Swap l (S k') k') u v
                = Less l (transp (S k') k' u) (transp (S k') k' v))
        by (intros; apply Less_Swap; lia).
      destruct (IH (Swap l (S k') k')) as [Hswaps Hres].
      * lia.
      * lia.
      * rewrite Swap_length. lia.
      * intros i j Hi Hij Hj Hik Hjk. rewrite Hsw. unfold transp.
        repeat case_decide; subst; try lia;
          try apply Less_irrefl; apply Hsorted; lia.
      * intros i Hi Hit. rewrite Hsw. unfold transp.
        repeat case_decide; subst; try lia; [exact Hless|apply Hup; lia].
      * split; [|exact Hres].
        eapply swaps_in_trans; [|exact Hswaps].
        apply swaps_in_swap; lia.
    + split; [apply swaps_refl|].
      apply (Hstop (S k') l); auto.
      apply andb_false_iff in Htest as [Hlt|Hless].
      * apply Nat.ltb_ge in Hlt. left. lia.
      * right. now replace (S k' - 1) with k' by lia.
Qed.

Lemma insertion_outer_spec a : forall n l i,
  a < i -> i + n <= length l -> sorted_range l a i ->
  swaps_in a (i + n) l (insertion_outer n l a i) /\
  sorted_range (insertion_outer n l a i) a (i + n).
Proof.
  induction n as [|n IH]; intros l i Hi Hlen Hsorted.
  - cbn. rewrite Nat.add_0_r. split; [apply swaps_refl|assumption].
  - cbn [insertion_outer].
    destruct (insertion_inner_spec a i i l) as [Hsw Hres]; try lia.
    + intros u v Hu Huv Hv Hui Hvi. apply Hsorted; lia.
    + destruct (IH (insertion_inner l a i) (S i)) as [Hsw' Hres'].
      * lia.
      * rewrite (swaps_in_length _ _ _ _ Hsw). lia.
      * exact Hres.
      * replace (i + S n) with (S i + n) by lia. split; [|exact Hres'].
        eapply swaps_in_trans; [|exact Hsw'].
        eapply swaps_in_mono; [| |exact Hsw]; lia.
Qed.

Lemma insertionSort_func_spec l a b :
  a <= b -> b <= length l ->
  swaps_in a b l (insertionSort_func l a b) /\
  sorted_range (insertionSort_func l a b) a b.
Proof.
  intros Hab Hb. unfold insertionSort_func.
  destruct (Nat.le_gt_cases b (a + 1)) as [Hshort|Hlong].
  - replace (b - (a + 1)) with 0 by lia. cbn.
    split; [apply swaps_refl|now apply sorted_range_short].
  - destruct (insertion_outer_spec a (b - (a + 1)) l (a + 1)) as [Hsw Hres].
    + lia.
    + lia.
    + apply sorted_range_short. lia.
    + now replace (a + 1 + (b - (a + 1))) with b in * by lia.
Qed.

Lemma gap_pass_spec a b : forall n l i,
  a + 6 <= i -> i + n <= b -> swaps_in a b l (gap_pass n l i).
Proof.
  induction n as [|n IH]; intros l i Hi Hn; cbn [gap_pass]; [apply swaps_refl|].
  eapply swaps_in_trans; [|apply IH; lia].
  destruct (Less l i (i - 6)); [apply swaps_in_swap; lia|apply swaps_refl].
Qed.

(** *** Heap sort *)

Lemma Less_at l i j i' j' (r : bool) :
  Less l i' j' = r -> i = i' -> j = j' -> Less l i j = r.
Proof. now intros H -> ->. Qed.

Lemma siftDown_loop_spec first hi k : forall fuel l root,
  k <= root -> hi <= root + fuel -> first + hi <= length l ->
  (forall i, k <= i -> i < hi -> i <> root -> heap_at l first hi i) ->
  (forall p c, k <= p -> (root = 2 * p + 1 \/ root = 2 * p + 2) ->
               (c = 2 * root + 1 \/ c = 2 * root + 2) -> c < hi ->
               Less l (first + p) (first + c) = false) ->
  swaps_in (first + root) (first + hi) l (siftDown_loop fuel l root hi first) /\
  heap_from (siftDown_loop fuel l root hi first) first hi k.
Proof.
  induction fuel as [|fuel IH]; intros l root Hk Hfuel Hlen Hheap Hgp.
  - cbn. split; [apply swaps_refl|].
    intros i Hi Hhi. apply Hheap; lia.
  - cbn [siftDown_loop].
    destruct (Nat.leb_spec hi (2 * root + 1)) as [Hleaf|Hchild].
    { split; [apply swaps_refl|].
      intros i Hi Hhi. destruct (decide (i = root)) as [->|Hne]; [|now apply Hheap].
      intros c Hc Hchi. lia. }
    set (child := if (2 * root + 1 + 1 <? hi)
                       && Less l (first + (2 * root + 1)) (first + (2 * root + 1) + 1)
                  then 2 * root + 1 + 1 else 2 * root + 1).
    assert (Hchild_cases :
              (child = 2 * root + 1 \/ child = 2 * root + 2) /\ child < hi /\
              forall c, (c = 2 * root + 1 \/ c = 2 * root + 2) -> c < hi ->
                        Less l (first + child) (first + c) = false).
    { subst child.
      destruct ((2 * root + 1 + 1 <? hi)
                && Less l (first + (2 * root + 1)) (first + (2 * root + 1) + 1))
        eqn:Htest.
      - apply andb_true_iff in Htest as [Hlt Hless]. apply Nat.ltb_lt in Hlt.
        split; [right; lia|]. split; [lia|].
        intros c [->| ->] Hc.
        + eapply Less_at; [apply Less_asym, Hless|lia|lia].
        + eapply Less_at; [apply (Less_irrefl l (first + (2 * root + 2)))|lia|lia].
      - split; [left; lia|]. split; [lia|].
        intros c [->| ->] Hc.
        + apply Less_irrefl.
        + apply andb_false_iff in Htest as [Hlt|Hless].
          * apply Nat.ltb_ge in Hlt. lia.
          * eapply Less_at; [exact Hless|lia|lia]. }
    destruct Hchild_cases as (Hcc & Hchi & Hbig). clearbody child.
    destruct (Less l (first + root) (first + child)) eqn:Hroot; cbn [negb].
    + (* the child moves up *)
      assert (Hsw : forall u v,
                Less (Swap l (first + root) (first + child)) u v
                = Less l (transp (first + root) (first + child) u)
                         (transp (first + root) (first + child) v))
        by (intros; apply Less_Swap; lia).
      destruct (IH (Swap l (first + root) (first + child)) child) as [Hswaps Hres].
      * lia.
      * lia.
      * rewrite Swap_length. lia.
      * intros i Hi Hhi Hne c Hc Hchi'. rewrite Hsw.
        destruct (decide (i = root)) as [->|Hir].
        -- destruct (decide (c = child)) as [->|Hcc'].
           ++ eapply Less_at; [apply Less_asym, Hroot| |];
                unfold transp; repeat case_decide; lia.
           ++ eapply Less_at; [apply (Hbig c); [lia|lia]| |];
                unfold transp; repeat case_decide; lia.
        -- destruct (decide (c = root)) as [->|Hcr].
           ++ eapply Less_at; [apply (Hgp i child); [lia|lia|lia|lia]| |];
                unfold transp; repeat case_decide; lia.
           ++ eapply Less_at; [apply (Hheap i Hi Hhi Hir c Hc Hchi')| |];
                unfold transp; repeat case_decide; lia.
      * intros p c Hp Hpc Hc Hchi'. rewrite Hsw.
        assert (p = root) as -> by lia.
        eapply Less_at; [apply (Hheap child); [lia|lia|lia|exact Hc|exact Hchi']| |];
          unfold transp; repeat case_decide; lia.
      * split; [|exact Hres].
        eapply swaps_in_trans;
          [apply (swaps_in_swap l (first + root) (first + hi)
                    (first + root) (first + child)); lia|].
        eapply swaps_in_mono; [| |exact Hswaps]; lia.
    + (* the root stays *)
      split; [apply swaps_refl|].
      intros i Hi Hhi. destruct (decide (i = root)) as [->|Hne]; [|now apply Hheap].
      intros c Hc Hchi'.
      apply (Less_ge_trans l (first + c) (first + child) (first + root));
        [lia|now apply Hbig|exact Hroot].
Qed.

Lemma siftDown_func_spec first hi k l root :
  k <= root -> first + hi <= length l ->
  (forall i, k <= i -> i < hi -> i <> root -> heap_at l first hi i) ->
  (forall p c, k <= p -> (root = 2 * p + 1 \/ root = 2 * p + 2) ->
               (c = 2 * root + 1 \/ c = 2 * root + 2) -> c < hi ->
               Less l (first + p) (first + c) = false) ->
  swaps_in (first + root) (first + hi) l (siftDown_func l root hi first) /\
  heap_from (siftDown_func l root hi first) first hi k.
Proof. intros. apply siftDown_loop_spec; auto. lia. Qed.

Lemma heap_build_spec first hi : forall k l,
  first + hi <= length l -> heap_from l first hi k ->
  swaps_in first (first + hi) l (heap_build k l hi first) /\
  heap_from (heap_build k l hi first) first hi 0.
Proof.
  induction k as [|i IH]; intros l Hlen Hheap; cbn [heap_build].
  - split; [apply swaps_refl|assumption].
  - destruct (siftDown_func_spec first hi i l i) as [Hsw Hres]; auto.
    + intros j Hj Hhi Hne. apply Hheap; lia.
    + intros p c Hp Hpc. lia.
    + destruct (IH (siftDown_func l i hi first)) as [Hsw' Hres'].
      * rewrite (swaps_in_length _ _ _ _ Hsw). exact Hlen.
      * exact Hres.
      * split; [|exact Hres'].
        eapply swaps_in_trans; [|exact Hsw'].
        eapply swaps_in_mono; [| |exact Hsw]; lia.
Qed.

(** The root of a heap is not less than any node. *)
Lemma heap_root_max first hi l :
  first + hi <= length l -> heap_from l first hi 0 ->
  forall j, j < hi -> Less l first (first + j) = false.
Proof.
  intros Hlen Hheap j. induction j as [j IH] using lt_wf_ind. intros Hj.
  destruct j as [|j'].
  - eapply Less_at; [apply (Less_irrefl l first)|lia|lia].
  - pose proof (Nat.div_mod_eq j' 2) as Hdm.
    pose proof (Nat.mod_upper_bound j' 2 ltac:(lia)) as Hmod.
    set (p := j' / 2) in *.
    apply (Less_ge_trans l (first + S j') (first + p) first); [lia| |].
    + apply (Hheap p); lia.
    + apply IH; lia.
Qed.

Lemma heap_pop_spec first n : forall k l,
  k <= n -> first + n <= length l ->
  heap_from l first k 0 ->
  sorted_range l (first + k) (first + n) ->
  (forall i j, i < k -> k <= j -> j < n ->
               Less l (first + j) (first + i) = false) ->
  swaps_in first (first + n) l (heap_pop k l first) /\
  sorted_range (heap_pop k l first) first (first + n).
Proof.
  induction k as [|i IH]; intros l Hk Hlen Hheap Hsorted Hcross; cbn [heap_pop].
  - split; [apply swaps_refl|]. now rewrite Nat.add_0_r in Hsorted.
  - set (l1 := Swap l first (first + i)).
    assert (Hsw : forall u v,
              Less l1 u v = Less l (transp first (first + i) u) (transp first (first + i) v))
      by (intros; apply Less_Swap; lia).
    assert (Hmax : forall j, j < S i -> Less l first (first + j) = false)
      by (apply (heap_root_max first (S i)); [lia|exact Hheap]).
    assert (Hlen1 : length l1 = length l) by apply Swap_length.
    destruct (siftDown_func_spec first i 0 l1 0) as [Hsw2 Hheap2].
    + lia.
    + lia.
    + intros j Hj Hji Hne c Hc Hci. rewrite Hsw.
      eapply Less_at; [apply (Hheap j); [lia|lia|exact Hc|lia]| |];
        unfold transp; repeat case_decide; lia.
    + intros p c Hp Hpc. lia.
    + set (l2 := siftDown_func l1 0 i first) in *.
      assert (Hout : forall u, first + i <= u -> l2 !! u = l1 !! u).
      { intros u Hu. apply (swaps_in_outside _ _ _ _ _ Hsw2). lia. }
      destruct (IH l2) as [Hsw3 Hres].
      * lia.
      * rewrite (swaps_in_length _ _ _ _ Hsw2), Hlen1. exact Hlen.
      * exact Hheap2.
      * intros u v Hu Huv Hv.
        rewrite (Less_ext l2 l1 v v u u) by (apply Hout; lia).
        rewrite Hsw.
        destruct (decide (u = v)) as [->|Hne]; [apply Less_irrefl|].
        destruct (decide (u = first + i)) as [->|Hui].
        -- eapply Less_at; [apply (Hcross 0 (v - first)); lia| |];
             unfold transp; repeat case_decide; lia.
        -- eapply Less_at; [apply (Hsorted u v); lia| |];
             unfold transp; repeat case_decide; lia.
      * intros a j Ha Hj Hjn.
        destruct (swaps_in_inside _ _ _ _ (first + a) Hsw2 ltac:(lia))
          as (v & Hv & Hlook).
        rewrite (Less_ext l2 l1 (first + j) (first + j) (first + a) v)
          by (try apply Hout; try exact Hlook; lia).
        rewrite Hsw.
        destruct (decide (j = i)) as [->|Hji]; destruct (decide (v = first)) as [->|Hvf].
        -- eapply Less_at; [apply (Hmax i); lia| |];
             unfold transp; repeat case_decide; lia.
        -- eapply Less_at; [apply (Hmax (v - first)); lia| |];
             unfold transp; repeat case_decide; lia.
        -- eapply Less_at; [apply (Hcross i j); lia| |];
             unfold transp; repeat case_decide; lia.
        -- eapply Less_at; [apply (Hcross (v - first) j); lia| |];
             unfold transp; repeat case_decide; lia.
      * split; [|exact Hres].
        eapply swaps_in_trans;
          [apply (swaps_in_swap l first (first + n) first (first + i)); lia|].
        eapply swaps_in_trans; [|exact Hsw3].
        eapply swaps_in_mono; [| |exact Hsw2]; lia.
Qed.

Lemma heapSort_func_spec l a b :
  a <= b -> b <= length l ->
  swaps_in a b l (heapSort_func l a b) /\
  sorted_range (heapSort_func l a b) a b.
Proof.
  intros Hab Hb. unfold heapSort_func.
  set (hi := b - a).
  assert (Hb' : b = a + hi) by lia.
  destruct (heap_build_spec a hi ((hi - 1) / 2 + 1) l) as [Hsw Hheap].
  - lia.
  - intros i Hi Hhi c Hc Hchi.
    pose proof (Nat.div_mod_eq (hi - 1) 2) as Hdm.
    pose proof (Nat.mod_upper_bound (hi - 1) 2 ltac:(lia)) as Hmod.
    lia.
  - destruct (heap_pop_spec a hi hi (heap_build ((hi - 1) / 2 + 1) l hi a))
      as [Hsw' Hres].
    + lia.
    + rewrite (swaps_in_length _ _ _ _ Hsw). lia.
    + exact Hheap.
    + apply sorted_range_short. lia.
    + intros i j Hi Hj Hjn. lia.
    + rewrite Hb'. split; [|exact Hres].
      eapply swaps_in_trans; [exact Hsw|exact Hsw'].
Qed.

(** *** Partitioning around the pivot *)

Lemma medianOfThree_swaps l a b m1 m0 m2 :
  a <= m1 < b -> a <= m0 < b -> a <= m2 < b ->
  swaps_in a b l (medianOfThree_func l m1 m0 m2).
Proof.
  intros H1 H0 H2. unfold medianOfThree_func. cbv zeta.
  set (l1 := if Less l m1 m0 then Swap l m1 m0 else l).
  assert (Hl1 : swaps_in a b l l1).
  { subst l1. destruct (Less l m1 m0); [apply swaps_in_swap; lia|apply swaps_refl]. }
  destruct (Less l1 m2 m1); [|assumption].
  destruct (Less (Swap l1 m2 m1) m1 m0).
  - apply swaps_step; [|lia|lia]. apply swaps_step; [assumption|lia|lia].
  - apply swaps_step; [assumption|lia|lia].
Qed.

(** Afterwards [data[m1] <= data[m2]]. *)
Lemma medianOfThree_upper l m1 m0 m2 :
  m1 < length l -> m0 < length l -> m2 < length l ->
  m0 <> m1 -> m1 <> m2 -> m0 <> m2 ->
  Less (medianOfThree_func l m1 m0 m2) m2 m1 = false.
Proof.
  intros H1 H0 H2 H01 H12 H02. unfold medianOfThree_func. cbv zeta.
  set (l1 := if Less l m1 m0 then Swap l m1 m0 else l).
  assert (Hlen1 : length l1 = length l)
    by (subst l1; destruct (Less l m1 m0); [apply Swap_length|reflexivity]).
  assert (Hfact : Less l1 m1 m0 = false).
  { subst l1. destruct (Less l m1 m0) eqn:Hlt; [|exact Hlt].
    rewrite Less_Swap by assumption.
    eapply Less_at; [apply Less_asym, Hlt| |]; unfold transp; repeat case_decide; lia. }
  destruct (Less l1 m2 m1) eqn:H21; [|exact H21].
  assert (Hl2 : forall u v, Less (Swap l1 m2 m1) u v
                            = Less l1 (transp m2 m1 u) (transp m2 m1 v))
    by (intros; apply Less_Swap; lia).
  destruct (Less (Swap l1 m2 m1) m1 m0) eqn:H10.
  - rewrite Less_Swap by (rewrite Swap_length; lia). rewrite Hl2.
    eapply Less_at; [exact Hfact| |]; unfold transp; repeat case_decide; lia.
  - rewrite Hl2.
    eapply Less_at; [apply Less_asym, H21| |]; unfold transp; repeat case_decide; lia.
Qed.

Lemma choose_pivot_spec l lo hi :
  12 < hi - lo -> hi <= length l ->
  let l' := choose_pivot l lo hi ((lo + hi) / 2) in
  swaps_in lo hi l l' /\ Less l' (hi - 1) lo = false.
Proof.
  intros Hn Hlen. cbv zeta.
  pose proof (Nat.div_mod_eq (lo + hi) 2) as Hdm.
  pose proof (Nat.mod_upper_bound (lo + hi) 2 ltac:(lia)) as Hmod.
  set (m := (lo + hi) / 2) in *.
  unfold choose_pivot. cbv zeta.
  set (l0 := if 40 <? hi - lo then _ else l).
  assert (Hl0 : swaps_in lo hi l l0).
  { subst l0. destruct (Nat.ltb_spec 40 (hi - lo)) as [Hbig|_]; [|apply swaps_refl].
    pose proof (Nat.div_mod_eq (hi - lo) 8) as Hdm8.
    pose proof (Nat.mod_upper_bound (hi - lo) 8 ltac:(lia)) as Hmod8.
    set (s := (hi - lo) / 8) in *.
    eapply swaps_in_trans; [eapply swaps_in_trans|];
      [apply medianOfThree_swaps| apply medianOfThree_swaps
       | apply medianOfThree_swaps]; lia. }
  split.
  - eapply swaps_in_trans; [exact Hl0|]. apply medianOfThree_swaps; lia.
  - apply medianOfThree_upper; rewrite ?(swaps_in_length _ _ _ _ Hl0); lia.
Qed.

Lemma scan_up_spec (test : nat -> bool) : forall n i,
  i <= scan_up test n i <= i + n /\
  (forall u, i <= u -> u < scan_up test n i -> test u = true) /\
  (scan_up test n i < i + n -> test (scan_up test n i) = false).
Proof.
  induction n as [|n IH]; intros i; cbn [scan_up].
  - repeat split; try lia.
  - destruct (test i) eqn:Ht.
    + destruct (IH (S i)) as (Hr & Hall & Hstop). repeat split; try lia.
      * intros u Hu Hur. destruct (decide (u = i)) as [->|Hne]; [exact Ht|].
        apply Hall; lia.
      * intros Hlt. apply Hstop. lia.
    + repeat split; try lia. intros _. exact Ht.
Qed.

Lemma scan_down_spec (test : nat -> bool) : forall n c,
  n <= c ->
  c - n <= scan_down test n c <= c /\
  (forall u, scan_down test n c <= u -> u < c -> test u = true) /\
  (c - n < scan_down test n c -> test (scan_down test n c - 1) = false).
Proof.
  induction n as [|n IH]; intros c Hn; cbn [scan_down].
  - repeat split; try lia.
  - destruct (test (c - 1)) eqn:Ht.
    + destruct (IH (c - 1)) as (Hr & Hall & Hstop); [lia|]. repeat split; try lia.
      * intros u Hu Huc. destruct (decide (u = c - 1)) as [->|Hne]; [exact Ht|].
        apply Hall; lia.
      * intros Hlt. apply Hstop. lia.
    + repeat split; try lia. intros _. exact Ht.
Qed.

(** The main loop: [[a, b)] not above the pivot, [[c, hi-1)] above it. *)
Lemma pivot_loop_spec lo hi a : forall fuel l b c l' b' c',
  lo < a -> a <= b -> b <= c -> c <= hi - 1 -> hi <= length l -> c - b <= fuel ->
  (forall i, a <= i -> i < b -> Less l lo i = false) ->
  (forall i, c <= i -> i < hi - 1 -> Less l lo i = true) ->
  pivot_loop fuel l lo b c = (l', b', c') ->
  swaps_in a (hi - 1) l l' /\ b' = c' /\ a <= b' /\ b' <= hi - 1 /\
  (forall i, a <= i -> i < b' -> Less l' lo i = false) /\
  (forall i, c' <= i -> i < hi - 1 -> Less l' lo i = true).
Proof.
  induction fuel as [|fuel IH]; intros l b c l' b' c' Hlo Hab Hbc Hc Hlen Hfuel Hle Hgt;
    cbn [pivot_loop].
  all: destruct (scan_up_spec (fun i => negb (Less l lo i)) (c - b) b)
         as (Hb1 & Hb1all & Hb1stop).
  all: set (b1 := scan_up (fun i => negb (Less l lo i)) (c - b) b) in *.
  all: destruct (scan_down_spec (fun i => Less l lo i) (c - b1) c ltac:(lia))
         as (Hc1 & Hc1all & Hc1stop).
  all: set (c1 := scan_down (fun i => Less l lo i) (c - b1) c) in *.
  all: assert (Hle1 : forall i, a <= i -> i < b1 -> Less l lo i = false)
         by (intros i Hi Hib; destruct (Nat.lt_ge_cases i b);
             [apply Hle; lia|apply negb_true_iff, Hb1all; lia]).
  all: assert (Hgt1 : forall i, c1 <= i -> i < hi - 1 -> Less l lo i = true)
         by (intros i Hi Hih; destruct (Nat.lt_ge_cases i c);
             [apply Hc1all; lia|apply Hgt; lia]).
  all: destruct (Nat.leb_spec c1 b1) as [Hdone|Hmore].
  1,3: intros H; inversion H; subst l' b' c';
       (split; [apply swaps_refl|]); repeat split; try lia; auto;
       intros i Hi Hib; apply Hle1; lia.
  - lia.
  - assert (Hb1f : Less l lo b1 = true)
      by (apply negb_false_iff, Hb1stop; lia).
    assert (Hc1f : Less l lo (c1 - 1) = false) by (apply Hc1stop; lia).
    assert (Hne : b1 <> c1 - 1) by (intros Heq; rewrite Heq in Hb1f; congruence).
    assert (Hsw : forall u v,
              Less (Swap l b1 (c1 - 1)) u v
              = Less l (transp b1 (c1 - 1) u) (transp b1 (c1 - 1) v))
      by (intros; apply Less_Swap; lia).
    intros Hrec.
    destruct (IH (Swap l b1 (c1 - 1)) (b1 + 1) (c1 - 1) l' b' c') as (Hs & Hr);
      try lia; try exact Hrec.
    + rewrite Swap_length. lia.
    + intros i Hi Hib. rewrite Hsw.
      destruct (decide (i = b1)) as [->|Hib1].
      * eapply Less_at; [exact Hc1f| |]; unfold transp; repeat case_decide; lia.
      * eapply Less_at; [apply (Hle1 i); lia| |];
          unfold transp; repeat case_decide; lia.
    + intros i Hi Hih. rewrite Hsw.
      destruct (decide (i = c1 - 1)) as [->|Hic1].
      * eapply Less_at; [exact Hb1f| |]; unfold transp; repeat case_decide; lia.
      * eapply Less_at; [apply (Hgt1 i); lia| |];
          unfold transp; repeat case_decide; lia.
    + split; [|exact Hr].
      eapply swaps_in_trans; [|exact Hs].
      apply (swaps_in_swap l a (hi - 1) b1 (c1 - 1)); lia.
Qed.

(** The loop that gathers the elements equal to the pivot below [[b, c)]. *)
Lemma protect_loop_spec lo c hi : forall fuel l a b l' a' b',
  lo < a -> a <= b -> b <= c -> c <= hi -> hi <= length l -> b - a <= fuel ->
  partitioned l lo a b c hi ->
  protect_loop fuel l lo a b = (l', a', b') ->
  swaps_in (lo + 1) hi l l' /\ a <= b' /\ b' <= b /\
  partitioned l' lo b' b' c hi.
Proof.
  induction fuel as [|fuel IH];
    intros l a b l' a' b' Hlo Hab Hbc Hc Hlen Hfuel (J1 & J2 & J3 & J4);
    cbn [protect_loop].
  all: destruct (scan_down_spec (fun i => negb (Less l i lo)) (b - a) b ltac:(lia))
         as (Hb1 & Hb1all & Hb1stop).
  all: set (b1 := scan_down (fun i => negb (Less l i lo)) (b - a) b) in *.
  all: destruct (scan_up_spec (fun i => Less l i lo) (b1 - a) a)
         as (Ha1 & Ha1all & Ha1stop).
  all: set (a1 := scan_up (fun i => Less l i lo) (b1 - a) a) in *.
  all: assert (J1' : forall i, lo < i -> i < a1 -> Less l i lo = true)
         by (intros i Hi Hia; destruct (Nat.lt_ge_cases i a);
             [apply J1; lia|apply Ha1all; lia]).
  all: assert (J3' : forall i, b1 <= i -> i < c ->
                       Less l lo i = false /\ Less l i lo = false)
         by (intros i Hi Hic; destruct (Nat.lt_ge_cases i b);
             [split; [apply J2; lia|apply negb_true_iff, Hb1all; lia]
             |apply J3; lia]).
  all: destruct (Nat.leb_spec b1 a1) as [Hdone|Hmore].
  1,3: intros H; inversion H; subst l' a' b';
       (split; [apply swaps_refl|]); split; [lia|]; split; [lia|];
       (split; [|split; [|split]]);
       [intros i Hi Hib; apply J1'; lia
       |intros i Hi Hib; lia
       |intros i Hi Hic; apply J3'; lia
       |exact J4].
  - lia.
  - assert (Ha1f : Less l a1 lo = false) by (apply Ha1stop; lia).
    assert (Hb1f : Less l (b1 - 1) lo = true)
      by (apply negb_false_iff, Hb1stop; lia).
    assert (Hne : a1 <> b1 - 1) by (intros Heq; rewrite Heq in Ha1f; congruence).
    assert (Hsw : forall u v,
              Less (Swap l a1 (b1 - 1)) u v
              = Less l (transp a1 (b1 - 1) u) (transp a1 (b1 - 1) v))
      by (intros; apply Less_Swap; lia).
    intros Hrec.
    destruct (IH (Swap l a1 (b1 - 1)) (a1 + 1) (b1 - 1) l' a' b') as (Hs & Hr);
      try lia; try exact Hrec.
    + rewrite Swap_length. lia.
    + split; [|split; [|split]].
      * intros i Hi Hia. rewrite Hsw.
        destruct (decide (i = a1)) as [->|Hia1].
        -- eapply Less_at; [exact Hb1f| |]; unfold transp; repeat case_decide; lia.
        -- eapply Less_at; [apply (J1' i); lia| |];
             unfold transp; repeat case_decide; lia.
      * intros i Hi Hib. rewrite Hsw.
        eapply Less_at; [apply (J2 i); lia| |];
          unfold transp; repeat case_decide; lia.
      * intros i Hi Hic. rewrite !Hsw.
        destruct (decide (i = b1 - 1)) as [->|Hib1].
        -- split.
           ++ eapply Less_at; [apply (J2 a1); lia| |];
                unfold transp; repeat case_decide; lia.
           ++ eapply Less_at; [exact Ha1f| |];
                unfold transp; repeat case_decide; lia.
        -- destruct (J3' i ltac:(lia) ltac:(lia)) as [Hp Hq]. split.
           ++ eapply Less_at; [exact Hp| |];
                unfold transp; repeat case_decide; lia.
           ++ eapply Less_at; [exact Hq| |];
                unfold transp; repeat case_decide; lia.
      * intros i Hi Hih. rewrite Hsw.
        eapply Less_at; [apply (J4 i); lia| |];
          unfold transp; repeat case_decide; lia.
    + destruct Hr as (Hra & Hrb & Hrp).
      split; [|split; [lia|split; [lia|exact Hrp]]].
      eapply swaps_in_trans; [|exact Hs].
      apply (swaps_in_swap l (lo + 1) hi a1 (b1 - 1)); lia.
Qed.

Lemma partitioned_le_pivot l lo a b c hi i :
  partitioned l lo a b c hi -> lo < i -> i < c -> Less l lo i = false.
Proof.
  intros (J1 & J2 & J3 & J4) Hi Hic.
  destruct (Nat.lt_ge_cases i a); [apply Less_asym, J1; lia|].
  destruct (Nat.lt_ge_cases i b); [apply J2; lia|apply J3; lia].
Qed.

(** The probes of [check_dups], one at a time. *)
Lemma dups_probe_last l lo a b c hi :
  lo < a -> a <= b -> b <= c -> c + 2 <= hi -> hi <= length l ->
  partitioned l lo a b c hi -> Less l lo (hi - 1) = false ->
  partitioned (Swap l c (hi - 1)) lo a b (c + 1) hi.
Proof.
  intros Hlo Hab Hbc Hc Hlen (J1 & J2 & J3 & J4) Hlast.
  assert (Hsw : forall u v,
            Less (Swap l c (hi - 1)) u v
            = Less l (transp c (hi - 1) u) (transp c (hi - 1) v))
    by (intros; apply Less_Swap; lia).
  split; [|split; [|split]].
  - intros i Hi Hia. rewrite Hsw.
    eapply Less_at; [apply (J1 i); lia| |]; unfold transp; repeat case_decide; lia.
  - intros i Hi Hib. rewrite Hsw.
    eapply Less_at; [apply (J2 i); lia| |]; unfold transp; repeat case_decide; lia.
  - intros i Hi Hic. rewrite !Hsw.
    destruct (decide (i = c)) as [->|Hne].
    + split.
      * eapply Less_at; [exact Hlast| |]; unfold transp; repeat case_decide; lia.
      * eapply Less_at; [apply (J4 (hi - 1)); lia| |];
          unfold transp; repeat case_decide; lia.
    + destruct (J3 i ltac:(lia) ltac:(lia)) as [Hp Hq]. split.
      * eapply Less_at; [exact Hp| |]; unfold transp; repeat case_decide; lia.
      * eapply Less_at; [exact Hq| |]; unfold transp; repeat case_decide; lia.
  - intros i Hi Hih. rewrite Hsw.
    destruct (decide (i = hi - 1)) as [->|Hne].
    + eapply Less_at; [apply (J4 c); lia| |]; unfold transp; repeat case_decide; lia.
    + eapply Less_at; [apply (J4 i); lia| |]; unfold transp; repeat case_decide; lia.
Qed.

Lemma dups_probe_below l lo a b c hi :
  lo + 1 < b -> a <= b -> b <= c ->
  partitioned l lo a b c hi -> Less l (b - 1) lo = false ->
  a <= b - 1 /\ partitioned l lo a (b - 1) c hi.
Proof.
  intros Hlo Hab Hbc (J1 & J2 & J3 & J4) Hprobe.
  assert (Ha : a <= b - 1).
  { destruct (Nat.le_gt_cases a (b - 1)) as [|Hlt]; [assumption|].
    rewrite J1 in Hprobe by lia. discriminate. }
  split; [exact Ha|]. split; [|split; [|split]]; auto.
  - intros i Hi Hib. apply J2; lia.
  - intros i Hi Hic. destruct (decide (i = b - 1)) as [->|Hne].
    + split; [apply J2; lia|exact Hprobe].
    + apply J3; lia.
Qed.

Lemma dups_probe_middle l lo a b c hi m :
  lo < m -> m <= b - 1 -> lo < a -> a <= b -> b <= c -> c <= hi -> hi <= length l ->
  partitioned l lo a b c hi -> Less l m lo = false ->
  a <= b - 1 /\ partitioned (Swap l m (b - 1)) lo a (b - 1) c hi.
Proof.
  intros Hm Hmb Hlo Hab Hbc Hc Hlen (J1 & J2 & J3 & J4) Hprobe.
  assert (Ha : a <= m).
  { destruct (Nat.le_gt_cases a m) as [|Hlt]; [assumption|].
    rewrite J1 in Hprobe by lia. discriminate. }
  assert (Hsw : forall u v,
            Less (Swap l m (b - 1)) u v
            = Less l (transp m (b - 1) u) (transp m (b - 1) v))
    by (intros; apply Less_Swap; lia).
  split; [lia|]. split; [|split; [|split]].
  - intros i Hi Hia. rewrite Hsw.
    eapply Less_at; [apply (J1 i); lia| |]; unfold transp; repeat case_decide; lia.
  - intros i Hi Hib. rewrite Hsw.
    destruct (decide (i = m)) as [->|Hne].
    + eapply Less_at; [apply (J2 (b - 1)); lia| |];
        unfold transp; repeat case_decide; lia.
    + eapply Less_at; [apply (J2 i); lia| |];
        unfold transp; repeat case_decide; lia.
  - intros i Hi Hic. rewrite !Hsw.
    destruct (decide (i = b - 1)) as [->|Hne].
    + split.
      * eapply Less_at; [apply (J2 m); lia| |];
          unfold transp; repeat case_decide; lia.
      * eapply Less_at; [exact Hprobe| |]; unfold transp; repeat case_decide; lia.
    + destruct (J3 i ltac:(lia) ltac:(lia)) as [Hp Hq]. split.
      * eapply Less_at; [exact Hp| |]; unfold transp; repeat case_decide; lia.
      * eapply Less_at; [exact Hq| |]; unfold transp; repeat case_decide; lia.
  - intros i Hi Hih. rewrite Hsw.
    eapply Less_at; [apply (J4 i); lia| |]; unfold transp; repeat case_decide; lia.
Qed.

Lemma check_dups_spec l lo m hi a b c l' b' c' protect :
  lo < a -> a <= b -> b <= c -> c + 2 <= hi -> hi <= length l ->
  lo < m -> m + 2 <= b ->
  partitioned l lo a b c hi ->
  check_dups l lo m hi b c = (l', b', c', protect) ->
  swaps_in (lo + 1) hi l l' /\ a <= b' /\ b' <= c' /\ c' <= hi /\
  partitioned l' lo a b' c' hi.
Proof.
  intros Hlo Hab Hbc Hc Hlen Hm Hmb Hpart. unfold check_dups.
  (* data[hi-1] = pivot *)
  assert (H1 : exists l1 c1 d1,
             (if negb (Less l lo (hi - 1))
              then (Swap l c (hi - 1), c + 1, 1) else (l, c, 0)) = (l1, c1, d1) /\
             swaps_in (lo + 1) hi l l1 /\ c <= c1 /\ c1 <= hi /\
             partitioned l1 lo a b c1 hi).
  { destruct (Less l lo (hi - 1)) eqn:Hlast; cbn [negb].
    - exists l, c, 0. split; [reflexivity|]. split; [apply swaps_refl|].
      split; [lia|]. split; [lia|]. exact Hpart.
    - exists (Swap l c (hi - 1)), (c + 1), 1. split; [reflexivity|].
      split; [apply swaps_in_swap; lia|]. split; [lia|]. split; [lia|].
      now apply dups_probe_last. }
  destruct H1 as (l1 & c1 & d1 & -> & Hs1 & Hc1 & Hc1h & Hp1).
  assert (Hlen1 : length l1 = length l) by apply (swaps_in_length _ _ _ _ Hs1).
  (* data[b-1] = pivot *)
  assert (H2 : exists b2 d2,
             (if negb (Less l1 (b - 1) lo) then (b - 1, d1 + 1) else (b, d1))
             = (b2, d2) /\
             a <= b2 /\ b - 1 <= b2 /\ b2 <= b /\ partitioned l1 lo a b2 c1 hi).
  { destruct (Less l1 (b - 1) lo) eqn:Hbelow; cbn [negb].
    - exists b, d1. split; [reflexivity|]. split; [lia|]. split; [lia|].
      split; [lia|]. exact Hp1.
    - exists (b - 1), (d1 + 1). split; [reflexivity|].
      destruct (dups_probe_below l1 lo a b c1 hi) as [Ha Hp]; try lia; auto.
      split; [lia|]. split; [lia|]. split; [lia|]. exact Hp. }
  destruct H2 as (b2 & d2 & -> & Hab2 & Hb2lo & Hb2 & Hp2).
  (* data[m] = pivot *)
  assert (H3 : exists l3 b3 d3,
             (if negb (Less l1 m lo)
              then (Swap l1 m (b2 - 1), b2 - 1, d2 + 1) else (l1, b2, d2))
             = (l3, b3, d3) /\
             swaps_in (lo + 1) hi l1 l3 /\ a <= b3 /\ b3 <= b2 /\
             partitioned l3 lo a b3 c1 hi).
  { destruct (Less l1 m lo) eqn:Hmid; cbn [negb].
    - exists l1, b2, d2. split; [reflexivity|]. split; [apply swaps_refl|].
      split; [lia|]. split; [lia|]. exact Hp2.
    - exists (Swap l1 m (b2 - 1)), (b2 - 1), (d2 + 1). split; [reflexivity|].
      split; [apply swaps_in_swap; lia|].
      destruct (dups_probe_middle l1 lo a b2 c1 hi m) as [Ha Hp]; try lia; auto.
      split; [lia|]. split; [lia|]. exact Hp. }
  destruct H3 as (l3 & b3 & d3 & -> & Hs3 & Hab3 & Hb3 & Hp3).
  intros Heq. inversion Heq; subst.
  split; [eapply swaps_in_trans; eassumption|].
  split; [lia|]. split; [lia|]. split; [lia|]. exact Hp3.
Qed.

(** The pivot goes between the regions. *)
Lemma pivot_final l lo a b c hi :
  lo < a -> a <= b -> b <= c -> c <= hi -> hi <= length l ->
  partitioned l lo a b c hi ->
  swaps_in lo hi l (Swap l lo (b - 1)) /\
  pivoted (Swap l lo (b - 1)) lo (b - 1) c hi.
Proof.
  intros Hlo Hab Hbc Hc Hlen Hpart.
  pose proof Hpart as (J1 & J2 & J3 & J4).
  split; [apply swaps_in_swap; lia|].
  assert (Hsw : forall u v,
            Less (Swap l lo (b - 1)) u v
            = Less l (transp lo (b - 1) u) (transp lo (b - 1) v))
    by (intros; apply Less_Swap; lia).
  split; [|split].
  - intros i Hi Hib. rewrite Hsw.
    destruct (decide (i = lo)) as [->|Hne].
    + eapply Less_at;
        [apply (partitioned_le_pivot l lo a b c hi (b - 1) Hpart); lia| |];
        unfold transp; repeat case_decide; lia.
    + eapply Less_at;
        [apply (partitioned_le_pivot l lo a b c hi i Hpart); lia| |];
        unfold transp; repeat case_decide; lia.
  - intros i Hi Hic. destruct (decide (i = b - 1)) as [->|Hne].
    + split; apply Less_irrefl.
    + rewrite !Hsw. destruct (J3 i ltac:(lia) ltac:(lia)) as [Hp Hq]. split.
      * eapply Less_at; [exact Hp| |]; unfold transp; repeat case_decide; lia.
      * eapply Less_at; [exact Hq| |]; unfold transp; repeat case_decide; lia.
  - intros i Hi Hih. rewrite Hsw.
    eapply Less_at; [apply (J4 i); lia| |]; unfold transp; repeat case_decide; lia.
Qed.

Lemma Less_outside a b l l' i j :
  swaps_in a b l l' -> ~ (a <= i < b) -> ~ (a <= j < b) ->
  Less l' i j = Less l i j.
Proof. intros H Hi Hj. apply Less_ext; now apply (swaps_in_outside a b). Qed.

Lemma doPivot_func_spec l lo hi l' mlo mhi :
  12 < hi - lo -> hi <= length l ->
  doPivot_func l lo hi = (l', mlo, mhi) ->
  swaps_in lo hi l l' /\ lo <= mlo /\ mlo < mhi /\ mhi <= hi /\
  pivoted l' lo mlo mhi hi.
Proof.
  intros Hn Hlen. unfold doPivot_func. cbv zeta.
  pose proof (Nat.div_mod_eq (lo + hi) 2) as Hdm.
  pose proof (Nat.mod_upper_bound (lo + hi) 2 ltac:(lia)) as Hmod.
  pose proof (Nat.div_mod_eq (hi - lo) 4) as Hdm4.
  pose proof (Nat.mod_upper_bound (hi - lo) 4 ltac:(lia)) as Hmod4.
  destruct (choose_pivot_spec l lo hi Hn Hlen) as [Hs0 Hlast0].
  set (m := (lo + hi) / 2) in *. set (q := (hi - lo) / 4) in *.
  set (l0 := choose_pivot l lo hi m) in *.
  assert (Hlen0 : length l0 = length l) by apply (swaps_in_length _ _ _ _ Hs0).
  destruct (scan_up_spec (fun i => Less l0 i lo) (hi - 1 - (lo + 1)) (lo + 1))
    as (Ha & Haall & _).
  set (a := scan_up (fun i => Less l0 i lo) (hi - 1 - (lo + 1)) (lo + 1)) in *.
  destruct (pivot_loop (hi - 1 - a) l0 lo a (hi - 1)) as [[l1 b] c] eqn:Hloop.
  destruct (pivot_loop_spec lo hi a (hi - 1 - a) l0 a (hi - 1) l1 b c ltac:(lia) ltac:(lia) ltac:(lia)
              ltac:(lia) ltac:(lia) ltac:(lia)
              ltac:(intros; lia) ltac:(intros; lia) Hloop)
    as (Hs1 & Hbc & Hab & Hbh & Hle1 & Hgt1).
  subst c.
  assert (Hlen1 : length l1 = length l0) by apply (swaps_in_length _ _ _ _ Hs1).
  assert (Hp1 : partitioned l1 lo a b b hi).
  { split; [|split; [|split]].
    - intros i Hi Hia. rewrite (Less_outside _ _ _ _ _ _ Hs1) by lia.
      apply Haall; lia.
    - exact Hle1.
    - intros i Hi Hib. lia.
    - intros i Hi Hih. destruct (decide (i = hi - 1)) as [->|Hne].
      + rewrite (Less_outside _ _ _ _ _ _ Hs1) by lia. exact Hlast0.
      + apply Less_asym, Hgt1; lia. }
  assert (H2 : exists l2 b2 c2 p2,
             (if negb (hi - b <? 5) && (hi - b <? q)
              then check_dups l1 lo m hi b b else (l1, b, b, hi - b <? 5))
             = (l2, b2, c2, p2) /\
             swaps_in (lo + 1) hi l1 l2 /\ a <= b2 /\ b2 <= c2 /\ c2 <= hi /\
             partitioned l2 lo a b2 c2 hi).
  { destruct (negb (hi - b <? 5) && (hi - b <? q)) eqn:Hcond.
    - apply andb_true_iff in Hcond as [H5 Hq].
      apply negb_true_iff, Nat.ltb_ge in H5. apply Nat.ltb_lt in Hq.
      destruct (check_dups l1 lo m hi b b) as [[[l2 b2] c2] p2] eqn:Hdups.
      exists l2, b2, c2, p2. split; [reflexivity|].
      apply (check_dups_spec l1 lo m hi a b b l2 b2 c2 p2); try lia; auto.
    - exists l1, b, b, (hi - b <? 5). split; [reflexivity|].
      split; [apply swaps_refl|]. split; [lia|]. split; [lia|]. split; [lia|].
      exact Hp1. }
  destruct H2 as (l2 & b2 & c2 & p2 & -> & Hs2 & Hab2 & Hbc2 & Hc2 & Hp2).
  assert (Hlen2 : length l2 = length l1) by apply (swaps_in_length _ _ _ _ Hs2).
  assert (H3 : exists l3 a3 b3,
             (if p2
              then let '(data, _, b0) := protect_loop (b2 - a) l2 lo a b2 in (data, b0)
              else (l2, b2)) = (l3, b3) /\
             swaps_in (lo + 1) hi l2 l3 /\ lo < a3 /\ a3 <= b3 /\ b3 <= c2 /\
             partitioned l3 lo a3 b3 c2 hi).
  { destruct p2.
    - destruct (protect_loop (b2 - a) l2 lo a b2) as [[l3 a3] b3] eqn:Hprot.
      destruct (protect_loop_spec lo c2 hi (b2 - a) l2 a b2 l3 a3 b3 ltac:(lia) ltac:(lia)
                  ltac:(lia) ltac:(lia) ltac:(lia) ltac:(lia) Hp2 Hprot)
        as (Hs3 & Hab3 & Hb3 & Hp3).
      exists l3, b3, b3. split; [reflexivity|]. split; [exact Hs3|].
      split; [lia|]. split; [lia|]. split; [lia|]. exact Hp3.
    - exists l2, a, b2. split; [reflexivity|]. split; [apply swaps_refl|].
      split; [lia|]. split; [lia|]. split; [lia|]. exact Hp2. }
  destruct H3 as (l3 & a3 & b3 & -> & Hs3 & Hlo3 & Hab3 & Hbc3 & Hp3).
  assert (Hlen3 : length l3 = length l2) by apply (swaps_in_length _ _ _ _ Hs3).
  intros Heq. inversion Heq; subst l' mlo mhi.
  destruct (pivot_final l3 lo a3 b3 c2 hi) as [Hs4 Hpiv]; try lia; auto.
  split; [|split; [lia|split; [lia|split; [lia|exact Hpiv]]]].
  eapply swaps_in_trans; [exact Hs0|].
  eapply swaps_in_trans; [eapply swaps_in_mono; [| |exact Hs1]; lia|].
  eapply swaps_in_trans; [eapply swaps_in_mono; [| |exact Hs2]; lia|].
  eapply swaps_in_trans; [eapply swaps_in_mono; [| |exact Hs3]; lia|].
  exact Hs4.
Qed.

(** *** [quickSort_func] and [sort.Slice] *)

Lemma sorted_range_swaps_outside a b a' b' l l' :
  swaps_in a' b' l l' -> (b' <= a \/ b <= a') ->
  sorted_range l a b -> sorted_range l' a b.
Proof.
  intros Hs Hdisj Hsorted i j Hi Hij Hj.
  rewrite (Less_outside _ _ _ _ _ _ Hs) by lia. now apply Hsorted.
Qed.

(** Sorting the two sides of a partition sorts the whole range. *)
Lemma sorted_range_join l lo mlo mhi hi :
  lo <= mlo -> mlo < mhi -> mhi <= hi -> hi <= length l ->
  pivoted l lo mlo mhi hi ->
  sorted_range l lo mlo -> sorted_range l mhi hi ->
  sorted_range l lo hi.
Proof.
  intros Hlo Hm Hhi Hlen (HL & HM & HR) Hleft Hright i j Hi Hij Hj.
  destruct (Nat.lt_ge_cases j mlo) as [Hjl|Hjl]; [apply Hleft; lia|].
  destruct (Nat.lt_ge_cases i mhi) as [Hir|Hir]; [|apply Hright; lia].
  apply (Less_ge_trans l i mlo j); [lia| |].
  - destruct (Nat.lt_ge_cases i mlo); [apply HL; lia|apply HM; lia].
  - destruct (Nat.lt_ge_cases j mhi); [apply HM; lia|apply HR; lia].
Qed.

Lemma pivoted_swaps_left l l' lo mlo mhi hi :
  mlo < mhi -> swaps_in lo mlo l l' ->
  pivoted l lo mlo mhi hi -> pivoted l' lo mlo mhi hi.
Proof.
  intros Hm Hs (HL & HM & HR). split; [|split].
  - intros i Hi Him.
    destruct (swaps_in_inside _ _ _ _ i Hs ltac:(lia)) as (v & Hv & Hlook).
    rewrite (Less_ext l' l mlo mlo i v);
      [apply HL; lia|apply (swaps_in_outside _ _ _ _ _ Hs); lia|exact Hlook].
  - intros i Hi Him. rewrite !(Less_outside _ _ _ _ _ _ Hs) by lia. now apply HM.
  - intros i Hi Hih. rewrite (Less_outside _ _ _ _ _ _ Hs) by lia. now apply HR.
Qed.

Lemma pivoted_swaps_right l l' lo mlo mhi hi :
  mlo < mhi -> swaps_in mhi hi l l' ->
  pivoted l lo mlo mhi hi -> pivoted l' lo mlo mhi hi.
Proof.
  intros Hm Hs (HL & HM & HR). split; [|split].
  - intros i Hi Him. rewrite (Less_outside _ _ _ _ _ _ Hs) by lia. now apply HL.
  - intros i Hi Him. rewrite !(Less_outside _ _ _ _ _ _ Hs) by lia. now apply HM.
  - intros i Hi Hih.
    destruct (swaps_in_inside _ _ _ _ i Hs ltac:(lia)) as (v & Hv & Hlook).
    rewrite (Less_ext l' l i v mlo mlo);
      [apply HR; lia|exact Hlook|apply (swaps_in_outside _ _ _ _ _ Hs); lia].
Qed.

Lemma quickSort_func_spec : forall depth l a b,
  a <= b -> b <= length l ->
  swaps_in a b l (quickSort_func depth l a b) /\
  sorted_range (quickSort_func depth l a b) a b.
Proof.
  assert (Hsmall : forall l a b,
            a <= b -> b <= length l ->
            swaps_in a b l
              (if 1 <? b - a
               then insertionSort_func (gap_pass (b - (a + 6)) l (a + 6)) a b
               else l) /\
            sorted_range
              (if 1 <? b - a
               then insertionSort_func (gap_pass (b - (a + 6)) l (a + 6)) a b
               else l) a b).
  { intros l a b Hab Hb. destruct (Nat.ltb_spec 1 (b - a)) as [Hlong|Hshort].
    - assert (Hgap : swaps_in a b l (gap_pass (b - (a + 6)) l (a + 6))).
      { destruct (Nat.le_gt_cases (a + 6) b).
        - apply gap_pass_spec; lia.
        - replace (b - (a + 6)) with 0 by lia. apply swaps_refl. }
      destruct (insertionSort_func_spec (gap_pass (b - (a + 6)) l (a + 6)) a b)
        as [Hs Hsorted]; [lia|rewrite (swaps_in_length _ _ _ _ Hgap); lia|].
      split; [eapply swaps_in_trans; eassumption|exact Hsorted].
    - split; [apply swaps_refl|apply sorted_range_short; lia]. }
  induction depth as [|d IH]; intros l a b Hab Hb; cbn [quickSort_func].
  - destruct (Nat.ltb_spec 12 (b - a)); [now apply heapSort_func_spec|now apply Hsmall].
  - destruct (Nat.ltb_spec 12 (b - a)) as [Hbig|_]; [|now apply Hsmall].
    destruct (doPivot_func l a b) as [[l1 mlo] mhi] eqn:Hpivot.
    destruct (doPivot_func_spec l a b l1 mlo mhi Hbig Hb Hpivot)
      as (Hs1 & Hlo & Hm & Hhi & Hpiv).
    assert (Hlen1 : length l1 = length l) by apply (swaps_in_length _ _ _ _ Hs1).
    destruct (mlo - a <? b - mhi).
    + destruct (IH l1 a mlo) as [Hs2 Hsorted2]; [lia|lia|].
      set (l2 := quickSort_func d l1 a mlo) in *.
      assert (Hlen2 : length l2 = length l1) by apply (swaps_in_length _ _ _ _ Hs2).
      destruct (IH l2 mhi b) as [Hs3 Hsorted3]; [lia|lia|].
      set (l3 := quickSort_func d l2 mhi b) in *.
      split.
      * eapply swaps_in_trans; [exact Hs1|].
        eapply swaps_in_trans; [eapply swaps_in_mono; [| |exact Hs2]; lia|].
        eapply swaps_in_mono; [| |exact Hs3]; lia.
      * apply (sorted_range_join l3 a mlo mhi b); try lia.
        -- rewrite (swaps_in_length _ _ _ _ Hs3). lia.
        -- apply (pivoted_swaps_right l2); [lia|exact Hs3|].
           apply (pivoted_swaps_left l1); [lia|exact Hs2|exact Hpiv].
        -- apply (sorted_range_swaps_outside a mlo mhi b l2); [exact Hs3|lia|exact Hsorted2].
        -- exact Hsorted3.
    + destruct (IH l1 mhi b) as [Hs2 Hsorted2]; [lia|lia|].
      set (l2 := quickSort_func d l1 mhi b) in *.
      assert (Hlen2 : length l2 = length l1) by apply (swaps_in_length _ _ _ _ Hs2).
      destruct (IH l2 a mlo) as [Hs3 Hsorted3]; [lia|lia|].
      set (l3 := quickSort_func d l2 a mlo) in *.
      split.
      * eapply swaps_in_trans; [exact Hs1|].
        eapply swaps_in_trans; [eapply swaps_in_mono; [| |exact Hs2]; lia|].
        eapply swaps_in_mono; [| |exact Hs3]; lia.
      * apply (sorted_range_join l3 a mlo mhi b); try lia.
        -- rewrite (swaps_in_length _ _ _ _ Hs3). lia.
        -- apply (pivoted_swaps_left l2); [lia|exact Hs3|].
           apply (pivoted_swaps_right l1); [lia|exact Hs2|exact Hpiv].
        -- exact Hsorted3.
        -- apply (sorted_range_swaps_outside mhi b a mlo l2); [exact Hs3|lia|exact Hsorted2].
Qed.

(** [sort.Slice] returns a permutation of its argument in which no element
    is less than an earlier one. *)
Lemma sort_Slice_spec l :
  sort_Slice l ≡ₚ l /\ sorted_range (sort_Slice l) 0 (length l).
Proof.
  unfold sort_Slice.
  destruct (quickSort_func_spec (maxDepth (length l)) l 0 (length l)) as [Hs Hsorted];
    [lia|lia|].
  split; [apply (swaps_in_perm _ _ _ _ Hs)|exact Hsorted].
Qed.

End SortSliceCorrect.

(** ** The order of the listing *)

Lemma ltb_leb (s t : string) : String.ltb s t = negb (String.leb t s).
Proof.
  unfold String.ltb, String.leb. rewrite (String.compare_antisym t s).
  now destruct (String.compare s t).
Qed.

Lemma leb_refl (s : string) : String.leb s s = true.
Proof.
  destruct (String.leb_total s s); assumption.
Qed.

Lemma leb_trans (s t u : string) :
  String.leb s t = true -> String.leb t u = true -> String.leb s u = true.
Proof.
  intros Hst Htu. apply Is_true_true.
  apply (@transitivity _ String.le _ s t u); apply Is_true_true; assumption.
Qed.

Lemma name_less_irrefl (x : file) : name_less x x = false.
Proof. unfold name_less. now rewrite ltb_leb, leb_refl. Qed.

Lemma name_less_ge_trans (x y z : file) :
  name_less y x = false -> name_less z y = false -> name_less z x = false.
Proof.
  unfold name_less. rewrite !ltb_leb, !negb_false_iff. apply leb_trans.
Qed.

Lemma name_less_trans (x y z : file) :
  name_less x y = true -> name_less y z = true -> name_less x z = true.
Proof.
  unfold name_less. rewrite !ltb_leb, !negb_true_iff. intros Hyx Hzy.
  destruct (String.leb (name z) (name x)) eqn:Hzx; [|reflexivity].
  destruct (String.leb_total (name x) (name y)) as [Hxy|Hxy]; [|congruence].
  rewrite (leb_trans _ _ _ Hzx Hxy) in Hzy. discriminate.
Qed.

(** The list the renderer works on is a permutation of the entries in
    which names never go down. *)
Lemma sorted_by_name (list : list file) :
  sort_Slice name_less list ≡ₚ list /\
  forall i j x y,
    (i <= j)%nat ->
    sort_Slice name_less list !! i = Some x ->
    sort_Slice name_less list !! j = Some y ->
    String.leb (name x) (name y) = true.
Proof.
  destruct (sort_Slice_spec name_less name_less_irrefl name_less_trans
              name_less_ge_trans list) as [Hperm Hsorted].
  split; [exact Hperm|].
  intros i j x y Hij Hx Hy.
  assert (Hj : (j < length list)%nat).
  { rewrite <- (Permutation_length Hperm). eapply lookup_lt_Some, Hy. }
  specialize (Hsorted i j ltac:(lia) Hij Hj).
  unfold Less in Hsorted. rewrite Hx, Hy in Hsorted.
  unfold name_less in Hsorted. rewrite ltb_leb in Hsorted.
  now apply negb_false_iff in Hsorted.
Qed.




(* ================================================================== *)
(** * Part III: further properties of the code                          *)
(* ================================================================== *)

(** ** [humanizeBytes] *)

(** The divisor never overflows: for a 64-bit count of at least 1000 the
    loop ends with [div] equal to a power of 1000 that is at most [b], which
    is the value the multiplications would have without wrap-around. *)
Theorem humanize_div_exact (b : Z) :
  is_int64 b -> 1000 <= b ->
  exists exp,
    0 <= exp <= 5 /\
    humanize_loop humanize_fuel (Z.quot b unit) unit 0 = Some (1000 ^ (exp + 1), exp) /\
    1000 ^ (exp + 1) <= b < 1000 * 1000 ^ (exp + 1).
Proof.
  intros Hb Hge.
  destruct (humanizeBytes_scaled b Hb Hge) as (exp & c & Hexp & Hloop & Hrange & _).
  exists exp. auto.
Qed.

Lemma humanize_div_exact_witness :
  is_int64 9223372036854775807 /\ 1000 <= 9223372036854775807 /\
  exists exp,
    0 <= exp <= 5 /\
    humanize_loop humanize_fuel (Z.quot 9223372036854775807 unit) unit 0
    = Some (1000 ^ (exp + 1), exp) /\
    1000 ^ (exp + 1) <= 9223372036854775807 < 1000 * 1000 ^ (exp + 1).
Proof.
  assert (H : is_int64 9223372036854775807)
    by (unfold is_int64, int64_min, int64_max; lia).
  split; [exact H|]. split; [lia|].
  apply (humanize_div_exact 9223372036854775807 H). lia.
Defined.

(** ** [listObjectsByPrefix] *)

(** There is no bound on the number of pages: on a backend that announces a
    next page in every answer the loop has not returned after any number of
    requests. *)
Theorem listObjectsByPrefix_unbounded {B} (c : s3Client B) (path : string) :
  (forall tok b, exists out b',
     ListObjectsV2 (api c) (list_request c (TrimPrefix path "/") tok) b = (inl out, b')
     /\ last_page out = false) ->
  forall fuel b, fst (listObjectsByPrefix fuel c path b) = Diverges.
Proof.
  intros Hmore fuel. unfold listObjectsByPrefix.
  generalize (@nil file) as files. generalize (@None string) as tok.
  induction fuel as [|fuel IH]; intros tok files b; cbn [list_loop]; [reflexivity|].
  destruct (Hmore tok b) as (out & b' & -> & Hlast). rewrite Hlast. apply IH.
Qed.

Lemma listObjectsByPrefix_unbounded_witness :
  let c := {| api := repeating page_one sign_plain; bucket := "bkt" |} in
  (forall tok b, exists out b',
     ListObjectsV2 (api c) (list_request c (TrimPrefix "/photos/" "/") tok) b
     = (inl out, b') /\ last_page out = false) /\
  fst (listObjectsByPrefix 1000 c "/photos/" tt) = Diverges.
Proof.
  cbn zeta.
  assert (H : forall tok b, exists out b',
             ListObjectsV2 (api {| api := repeating page_one sign_plain; bucket := "bkt" |})
               (list_request {| api := repeating page_one sign_plain; bucket := "bkt" |}
                  (TrimPrefix "/photos/" "/") tok) b
             = (inl out, b') /\ last_page out = false).
  { intros tok b. exists page_one, b. split; reflexivity. }
  split; [exact H|].
  apply (listObjectsByPrefix_unbounded _ "/photos/" H 1000%nat tt).
Defined.



(** ** The response writer *)

(** Once the status line is out, nothing a handler does changes the status
    or the headers that were sent; the body only grows. *)
Theorem response_committed (p : prog) (w : response) :
  wroteHeader w = true ->
  wroteHeader (run net_http p w) = true /\
  status (run net_http p w) = status w /\
  sentHeader (run net_http p w) = sentHeader w /\
  exists more, body (run net_http p w) = body w +:+ more.
Proof.
  revert w. induction p as [|c k IH|key k IH]; intros w Hw; cbn [run].
  - repeat split; auto. exists EmptyString. now rewrite append_nil_r.
  - assert (Hstep : wroteHeader (do_call net_http c w) = true /\
                    status (do_call net_http c w) = status w /\
                    sentHeader (do_call net_http c w) = sentHeader w /\
                    exists more, body (do_call net_http c w) = body w +:+ more).
    { destruct c as [key value|code|data]; cbn.
      - repeat split; auto. exists EmptyString. now rewrite append_nil_r.
      - unfold response_WriteHeader. rewrite Hw.
        repeat split; auto. exists EmptyString. now rewrite append_nil_r.
      - unfold response_Write. rewrite Hw.
        destruct (bodyAllowedForStatus (status w)); cbn.
        + repeat split; auto. now exists data.
        + repeat split; auto. exists EmptyString. now rewrite append_nil_r. }
    destruct Hstep as (Hw1 & Hs1 & Hh1 & more1 & Hb1).
    destruct (IH (do_call net_http c w) Hw1) as (Hw2 & Hs2 & Hh2 & more2 & Hb2).
    repeat split; try congruence.
    exists (more1 +:+ more2). now rewrite Hb2, Hb1, append_assoc.
  - apply IH. exact Hw.
Qed.

Lemma response_committed_witness :
  let w := run net_http (Do (Write "<pre>") Done) new_response in
  wroteHeader w = true /\
  status (run net_http (http_Error "boom" StatusInternalServerError) w) = 200.
Proof.
  cbn zeta.
  assert (H : wroteHeader (run net_http (Do (Write "<pre>") Done) new_response) = true)
    by reflexivity.
  split; [exact H|].
  rewrite (proj1 (proj2 (response_committed
                           (http_Error "boom" StatusInternalServerError) _ H))).
  reflexivity.
Defined.

(** ** [renderFileList] on directory paths *)

Lemma up_writes_directory (path : string) :
  HasSuffix path "/" = true ->
  exists up, up_writes path = Returns up /\
             (up = [] \/ exists href, up = [Write (up_link href)]).
Proof.
  intros Hdir. unfold up_writes. destruct (String.eqb path "/").
  - exists []. auto.
  - rewrite (HasSuffix_slash path Hdir), up_href_directory. eauto.
Qed.

Lemma rows_returns (lib : GoLib) (entries : list file) :
  Forall (fun f => isDir f = true \/ is_int64 (size f)) entries ->
  exists text, rows lib entries = Returns text.
Proof.
  induction 1 as [|f rest Hf _ [text IH]]; cbn [rows]; [eauto|].
  rewrite IH. unfold row. destruct (isDir f) eqn:Hd; [eauto|].
  destruct Hf as [Hf|Hf]; [discriminate|].
  destruct (humanizeBytes_total_in_bounds_aux (size f) Hf) as [s ->]. eauto.
Qed.

(** In directory mode the renderer always returns: it neither panics on the
    slice expression nor in [humanizeBytes], whatever the entries are, as
    long as sizes are 64-bit values. *)
Theorem renderFileList_returns {B} (lib : GoLib) (c : s3Client B) (r : Request)
    (entries : list file) (b : B) :
  HasSuffix (URL_Path r) "/" = true ->
  Forall (fun f => is_int64 (size f)) entries ->
  exists p err b', renderFileList lib c r entries b = (Returns (p, err), b').
Proof.
  intros Hdir Hsizes. unfold renderFileList.
  destruct (up_writes_directory _ Hdir) as (up & -> & _).
  destruct (rows_returns lib (sort_Slice name_less entries)) as [text ->].
  { destruct (sorted_by_name entries) as [Hperm _]. rewrite Hperm.
    eapply Forall_impl; [exact Hsizes|]. cbn. auto. }
  destruct (link_loop c _ _ b) as [[content|err] b']; eauto.
Qed.

Lemma renderFileList_returns_witness :
  HasSuffix (URL_Path (get_request "/photos/")) "/" = true /\
  Forall (fun f => is_int64 (size f)) sample_entries /\
  exists p err b',
    renderFileList test_lib (test_client sign_plain) (get_request "/photos/")
      sample_entries [] = (Returns (p, err), b').
Proof.
  assert (H : Forall (fun f => is_int64 (size f)) sample_entries).
  { repeat constructor; cbn; unfold int64_min, int64_max; lia. }
  split; [reflexivity|]. split; [exact H|].
  apply (renderFileList_returns test_lib (test_client sign_plain)
           (get_request "/photos/") sample_entries [] eq_refl H).
Defined.

Lemma LastIndex_from_no_slash (s : string) : forall i last,
  no_slash s = true -> LastIndex_from s "/" i last = last.
Proof.
  induction s as [|ch s IH]; intros i last Hs; cbn [LastIndex_from].
  - reflexivity.
  - cbn [no_slash] in Hs. apply andb_true_iff in Hs as [Hch Hs].
    rewrite prefix_slash_cons.
    destruct (Ascii.ascii_dec "/" ch) as [<-|_]; [discriminate|].
    now apply IH.
Qed.

(** Outside directory mode the slice expression can fail: for a path
    without any separator [renderFileList] panics (after it has started the
    page).  [buildHandler] never calls it with such a path. *)
Theorem renderFileList_panics_without_separator {B} (lib : GoLib) (c : s3Client B)
    (r : Request) (entries : list file) (b : B) :
  no_slash (URL_Path r) = true ->
  renderFileList lib c r entries b = (Panics "slice bounds out of range", b).
Proof.
  intros Hns. unfold renderFileList, up_writes, up_href, slice_to, LastIndex.
  rewrite (LastIndex_from_no_slash _ 0 (-1) Hns).
  destruct (String.eqb_spec (URL_Path r) "/") as [Heq|_].
  - rewrite Heq in Hns. discriminate.
  - cbn. now destruct (rows lib (sort_Slice name_less entries)).
Qed.

Lemma renderFileList_panics_without_separator_witness :
  no_slash (URL_Path (get_request "photos")) = true /\
  renderFileList test_lib (test_client sign_plain) (get_request "photos")
    sample_entries []
  = (Panics "slice bounds out of range", []).
Proof.
  split; [reflexivity|].
  apply (renderFileList_panics_without_separator test_lib (test_client sign_plain)
           (get_request "photos") sample_entries [] eq_refl).
Defined.

Lemma link_loop_directories {B} (c : s3Client B) (entries : list file) :
  Forall (fun f => isDir f = true) entries ->
  forall content b,
    link_loop c entries content b
    = (inl (fold_left
              (fun text d =>
                 Replace1 text (name d) (anchor ("/" +:+ name d) (name d)))
              entries content), b).
Proof.
  induction 1 as [|f rest Hf _ IH]; intros content b; cbn [link_loop fold_left].
  - reflexivity.
  - rewrite Hf. apply IH.
Qed.

(** A listing that holds only directories needs no signed link: the
    renderer cannot fail and leaves the backend alone; every directory is
    linked to ["/"] followed by its full prefix. *)
Theorem renderFileList_directories_only {B} (lib : GoLib) (c : s3Client B)
    (r : Request) (entries : list file) (b : B) :
  HasSuffix (URL_Path r) "/" = true ->
  Forall (fun f => isDir f = true) entries ->
  exists up text,
    up_writes (URL_Path r) = Returns up /\
    rows lib (sort_Slice name_less entries) = Returns text /\
    renderFileList lib c r entries b
    = (Returns
         (page_head (URL_Path r)
            (do_all up
               (Do (Write
                      (fold_left
                         (fun text d =>
                            Replace1 text (name d) (anchor ("/" +:+ name d) (name d)))
                         (sort_Slice name_less entries) (tabwriter lib text)
                       +:+ LF +:+ "</pre>" +:+ LF)) Done)), None), b).
Proof.
  intros Hdir Hdirs.
  assert (Hsorted : Forall (fun f => isDir f = true) (sort_Slice name_less entries)).
  { destruct (sorted_by_name entries) as [Hperm _]. now rewrite Hperm. }
  destruct (up_writes_directory _ Hdir) as (up & Hup & _).
  destruct (rows_returns lib (sort_Slice name_less entries)) as [text Htext].
  { eapply Forall_impl; [exact Hsorted|]. cbn. auto. }
  exists up, text. split; [exact Hup|]. split; [exact Htext|].
  unfold renderFileList. rewrite Hup, Htext.
  now rewrite (link_loop_directories c _ Hsorted).
Qed.

Lemma renderFileList_directories_only_witness :
  let dirs := [mkFile "photos/2021/" true 0 0; mkFile "photos/2020/" true 0 0] in
  HasSuffix (URL_Path (get_request "/photos/")) "/" = true /\
  Forall (fun f => isDir f = true) dirs /\
  exists up text,
    up_writes "/photos/" = Returns up /\
    rows test_lib (sort_Slice name_less dirs) = Returns text /\
    renderFileList test_lib (test_client sign_fails) (get_request "/photos/") dirs []
    = (Returns
         (page_head "/photos/"
            (do_all up
               (Do (Write
                      (fold_left
                         (fun text d =>
                            Replace1 text (name d) (anchor ("/" +:+ name d) (name d)))
                         (sort_Slice name_less dirs) (tabwriter test_lib text)
                       +:+ LF +:+ "</pre>" +:+ LF)) Done)), None), []).
Proof.
  cbn zeta.
  assert (H : Forall (fun f => isDir f = true)
                [mkFile "photos/2021/" true 0 0; mkFile "photos/2020/" true 0 0])
    by (repeat constructor).
  split; [reflexivity|]. split; [exact H|].
  apply (renderFileList_directories_only test_lib (test_client sign_fails)
           (get_request "/photos/") _ [] eq_refl H).
Defined.

(** ** The answers of the gateway *)




(** A prefix without entries gives a page with the head and the closing
    line around an empty table, without any signing request. *)
Theorem empty_listing_page {B} (lib : GoLib) (c : s3Client B) (r : Request) (b : B) :
  HasSuffix (URL_Path r) "/" = true ->
  exists up,
    up_writes (URL_Path r) = Returns up /\
    renderFileList lib c r [] b
    = (Returns
         (page_head (URL_Path r)
            (do_all up
               (Do (Write (tabwriter lib EmptyString +:+ LF +:+ "</pre>" +:+ LF)) Done)),
          None), b).
Proof.
  intros Hdir. destruct (up_writes_directory _ Hdir) as (up & Hup & _).
  exists up. split; [exact Hup|].
  unfold renderFileList. change (sort_Slice name_less []) with (@nil file).
  now rewrite Hup.
Qed.

Lemma empty_listing_page_witness :
  HasSuffix (URL_Path (get_request "/")) "/" = true /\
  exists up,
    up_writes "/" = Returns up /\
    renderFileList test_lib (test_client sign_fails) (get_request "/") [] []
    = (Returns
         (page_head "/"
            (do_all up
               (Do (Write (tabwriter test_lib EmptyString +:+ LF +:+ "</pre>" +:+ LF))
                  Done)), None), []).
Proof.
  split; [reflexivity|].
  apply (empty_listing_page test_lib (test_client sign_fails) (get_request "/") []
           eq_refl).
Defined.

(** ** Object mode *)

Lemma run_redirect_fresh (lib : GoLib) (r : Request) (url : string) (code : Z) :
  let w := run net_http (http_Redirect lib r url code) new_response in
  wroteHeader w = true /\ status w = code /\
  sentHeader w !! "Location"
  = Some (hexEscapeNonASCII lib (redirect_url lib (URL_Path r) url)) /\
  last_code (trace net_http (http_Redirect lib r url code) new_response) StatusOK = code.
Proof.
  cbn zeta. unfold http_Redirect. cbn [run trace net_http rw_HeaderGet new_response header].
  rewrite lookup_empty. cbn [negb andb].
  destruct (String.eqb (Method r) "GET" || String.eqb (Method r) "HEAD");
    destruct (String.eqb (Method r) "GET"); cbn;
    unfold response_Write; cbn;
    destruct (bodyAllowedForStatus code); cbn; repeat split;
    rewrite ?lookup_insert_ne by discriminate; apply lookup_insert_eq.
Qed.

(** For a path without trailing separator whose link is signed, the answer
    is a 308 whose [Location] is the signed URL as [http.Redirect] passes it
    on; the validity asked for is five minutes (300 seconds), no listing
    request is made, and the log line shows 308. *)
Theorem object_mode_redirect {B} (lib : GoLib) (fuel : nat) (elapsed : string)
    (c : s3Client B) (r : Request) (b : B) (link : string) (b1 : B) :
  HasSuffix (URL_Path r) "/" = false ->
  Presign (api c) {| get_Bucket := Some (bucket c); get_Key := Some (URL_Path r) |}
    (300 * 1000000000) b = (inl link, b1) ->
  exists w,
    gateway lib fuel elapsed c r b = (Returns (w, log_line r elapsed 308), b1) /\
    status w = 308 /\
    sentHeader w !! "Location"
    = Some (hexEscapeNonASCII lib (redirect_url lib (URL_Path r) link)) /\
    forall log sg,
      snd (gateway lib fuel elapsed (recording_client c) r (mkRecorded b log sg))
      = mkRecorded b1 log
          (sg ++ [({| get_Bucket := Some (bucket c); get_Key := Some (URL_Path r) |},
                   300 * 1000000000)]).
Proof.
  intros Hobj Hsign.
  assert (Hh : buildHandler lib fuel c r b
               = (Returns (http_Redirect lib r link StatusPermanentRedirect), b1)).
  { rewrite buildHandler_object_mode by exact Hobj.
    change (Minute * 5) with (300 * 1000000000). now rewrite Hsign. }
  destruct (run_redirect_fresh lib r link StatusPermanentRedirect)
    as (_ & Hstatus & Hloc & Hcode).
  exists (run net_http (http_Redirect lib r link StatusPermanentRedirect) new_response).
  split; [|split; [exact Hstatus|split; [exact Hloc|]]].
  - unfold gateway.
    rewrite (withLogging_run net_http elapsed _ r new_response b _ b1 Hh).
    now rewrite Hcode.
  - intros log sg. unfold gateway, withLogging.
    rewrite buildHandler_object_mode by exact Hobj.
    cbn [recording_client api bucket recording Presign inner listed signed].
    change (Minute * 5) with (300 * 1000000000). rewrite Hsign. reflexivity.
Qed.

Lemma object_mode_redirect_witness :
  let c := test_client sign_plain in
  let r := get_request "/photos/a.jpg" in
  HasSuffix (URL_Path r) "/" = false /\
  exists w,
    gateway test_lib 1 "1ms" c r [] = (Returns (w, log_line r "1ms" 308), []) /\
    status w = 308 /\
    sentHeader w !! "Location" = Some "https://s3.test/bkt//photos/a.jpg".
Proof.
  cbn zeta. split; [reflexivity|].
  destruct (object_mode_redirect test_lib 1 "1ms" (test_client sign_plain)
              (get_request "/photos/a.jpg") [] "https://s3.test/bkt//photos/a.jpg" []
              eq_refl eq_refl) as (w & Hg & Hs & Hl & _).
  exists w. split; [exact Hg|]. split; [exact Hs|exact Hl].
Defined.

(** When the link cannot be signed the answer is a 500 carrying the error
    text, and the log line shows 500. *)
Theorem object_mode_error {B} (lib : GoLib) (fuel : nat) (elapsed : string)
    (c : s3Client B) (r : Request) (b : B) (err : error) (b1 : B) :
  HasSuffix (URL_Path r) "/" = false ->
  Presign (api c) {| get_Bucket := Some (bucket c); get_Key := Some (URL_Path r) |}
    (300 * 1000000000) b = (inr err, b1) ->
  exists w,
    gateway lib fuel elapsed c r b = (Returns (w, log_line r elapsed 500), b1) /\
    status w = 500 /\ body w = err +:+ LF /\
    sentHeader w !! "Content-Type" = Some "text/plain; charset=utf-8".
Proof.
  intros Hobj Hsign.
  assert (Hh : buildHandler lib fuel c r b
               = (Returns (http_Error err StatusInternalServerError), b1)).
  { rewrite buildHandler_object_mode by exact Hobj.
    change (Minute * 5) with (300 * 1000000000). now rewrite Hsign. }
  exists (run net_http (http_Error err StatusInternalServerError) new_response).
  split.
  - unfold gateway.
    now rewrite (withLogging_run net_http elapsed _ r new_response b _ b1 Hh).
  - destruct (http_Error_fresh err StatusInternalServerError eq_refl)
      as (_ & Hs & Hb & Hc). auto.
Qed.

Lemma object_mode_error_witness :
  let c := test_client sign_fails in
  let r := get_request "/photos/a.jpg" in
  HasSuffix (URL_Path r) "/" = false /\
  exists w,
    gateway test_lib 1 "1ms" c r [] = (Returns (w, log_line r "1ms" 500), []) /\
    status w = 500 /\ body w = "no credentials" +:+ LF /\
    sentHeader w !! "Content-Type" = Some "text/plain; charset=utf-8".
Proof.
  cbn zeta. split; [reflexivity|].
  apply (object_mode_error test_lib 1 "1ms" (test_client sign_fails)
           (get_request "/photos/a.jpg") [] "no credentials" [] eq_refl eq_refl).
Defined.

(** ** Signing requests of the renderer *)

Lemma link_loop_signs_all {B} (c : s3Client B) (entries : list file) :
  forall content b content' b' lg sg,
    link_loop c entries content b = (inl content', b') ->
    link_loop (recording_client c) entries content (mkRecorded b lg sg)
    = (inl content',
       mkRecorded b' lg (sg ++ map (sign_request c) (objects_of entries))).
Proof.
  induction entries as [|f rest IH]; intros content b content' b' lg sg;
    cbn [link_loop objects_of List.filter map].
  - intros H; inversion H; subst. now rewrite app_nil_r.
  - destruct (isDir f) eqn:Hd; cbn [negb].
    + apply IH.
    + unfold getPreSignedLink.
      cbn [recording_client api bucket recording Presign inner listed signed].
      destruct (Presign (api c) _ (Minute * 5) b) as [[link|err] b1] eqn:Hsign;
        [|discriminate].
      intros Hrest. rewrite (IH _ _ _ _ lg _ Hrest).
      cbn [map]. now rewrite <- app_assoc.
Qed.


(** A listing that renders without error has asked for exactly one signed
    link per object entry, in the order of the sorted listing, each for the
    entry's name as key and for five minutes; directories are not signed. *)
Theorem renderFileList_signs_each_object {B} (lib : GoLib) (c : s3Client B)
    (r : Request) (entries : list file) (b : B) (p : prog) (b' : B) :
  renderFileList lib c r entries b = (Returns (p, None), b') ->
  forall lg sg,
    renderFileList lib (recording_client c) r entries (mkRecorded b lg sg)
    = (Returns (p, None),
       mkRecorded b' lg
         (sg ++ map (sign_request c) (objects_of (sort_Slice name_less entries)))) /\
    Minute * 5 = 300 * 1000000000.
Proof.
  unfold renderFileList.
  destruct (up_writes (URL_Path r)) as [up|msg|];
    destruct (rows lib (sort_Slice name_less entries)) as [text|msg'|];
    try discriminate.
  destruct (link_loop c _ _ b) as [[content|err] b1] eqn:Hlinks;
    intros H; inversion H; subst.
  intros lg sg. split; [|reflexivity].
  now rewrite (link_loop_signs_all c _ _ _ _ _ lg sg Hlinks).
Qed.

Lemma renderFileList_signs_each_object_witness :
  exists p,
    renderFileList test_lib (test_client sign_plain) (get_request "/photos/")
      sample_entries [] = (Returns (p, None), []) /\
    snd (renderFileList test_lib (recording_client (test_client sign_plain))
           (get_request "/photos/") sample_entries (mkRecorded [] [] []))
    = mkRecorded [] []
        [ ({| get_Bucket := Some "bkt"; get_Key := Some "b.txt" |}, 300000000000);
          ({| get_Bucket := Some "bkt"; get_Key := Some "c.txt" |}, 300000000000) ].
Proof.
  eexists. split; [vm_compute; reflexivity|].
  match goal with
  | |- snd ?run = _ =>
      pose proof (proj1 (renderFileList_signs_each_object test_lib
                           (test_client sign_plain) (get_request "/photos/")
                           sample_entries [] _ [] ltac:(vm_compute; reflexivity)
                           [] [])) as H
  end.
  rewrite H. vm_compute. reflexivity.
Defined.



(** ** [sort.Slice], for any strict weak order *)

Lemma StronglySorted_of_lookups {A} (R : A -> A -> Prop) (l : list A) :
  (forall i j x y, (i < j)%nat -> l !! i = Some x -> l !! j = Some y -> R x y) ->
  StronglySorted R l.
Proof.
  induction l as [|a l IH]; intros H; constructor.
  - apply IH. intros i j x y Hij Hx Hy. apply (H (S i) (S j)); [lia|exact Hx|exact Hy].
  - apply List.Forall_forall. intros y Hy.
    apply list_elem_of_In, list_elem_of_lookup in Hy as [j Hj].
    apply (H 0%nat (S j)); [lia|reflexivity|exact Hj].
Qed.

(** Whatever the comparison, provided it is a strict weak order:
    [sort.Slice] (quicksort with its insertion-sort and heap-sort branches)
    returns a permutation of the slice in which no element is less than an
    earlier one. *)
Theorem sort_Slice_sorts {A} (less : A -> A -> bool) (l : list A) :
  (forall x, less x x = false) ->
  (forall x y z, less x y = true -> less y z = true -> less x z = true) ->
  (forall x y z, less y x = false -> less z y = false -> less z x = false) ->
  Permutation l (sort_Slice less l) /\
  StronglySorted (not_less less) (sort_Slice less l).
Proof.
  intros Hirr Htrans Hge.
  destruct (sort_Slice_spec less Hirr Htrans Hge l) as [Hperm Hsorted].
  split; [symmetry; exact Hperm|].
  apply StronglySorted_of_lookups. intros i j x y Hij Hx Hy.
  assert (Hj : (j < length l)%nat).
  { rewrite <- (Permutation_length Hperm). eapply lookup_lt_Some, Hy. }
  specialize (Hsorted i j ltac:(lia) ltac:(lia) Hj).
  unfold Less in Hsorted. now rewrite Hx, Hy in Hsorted.
Qed.

Lemma sort_Slice_sorts_witness :
  Permutation [3; 1; 2] (sort_Slice Z.ltb [3; 1; 2]) /\
  StronglySorted (not_less Z.ltb) (sort_Slice Z.ltb [3; 1; 2]).
Proof.
  apply (sort_Slice_sorts Z.ltb [3; 1; 2]).
  - intros x. apply Z.ltb_irrefl.
  - intros x y z Hxy Hyz. apply Z.ltb_lt in Hxy, Hyz. apply Z.ltb_lt. lia.
  - intros x y z Hxy Hyz. apply Z.ltb_ge in Hxy, Hyz. apply Z.ltb_ge. lia.
Defined.
